(** * Accuracy / difficulty roll data of the Lancer system for Foundry VTT

    Shallow embedding of [src/module/helpers/acc_diff/index.ts]: the
    entities [AccDiffWeapon], [AccDiffBase], [AccDiffTarget] and
    [AccDiffData], their io-ts codecs (with plugin-extended [plugins]
    sub-maps), the constructors and hydration, the [total] accessors, the
    plugin registry and the [fromParams] factory.

    JavaScript values are modelled by [jsval]; numbers are integers (the
    spec fixes all accuracy, difficulty and cover values to integers).
    The code runs in a state and exception monad [M] over a [world]: the
    scene's tokens, the actors' active effects, the notifications shown
    to the user, and a ghost log recording the hydration steps and every
    write of a back-reference. *)

From Stdlib Require Import String List ZArith Bool Lia.
Import ListNotations.
Set Warnings "-register-all".

Open Scope string_scope.
Open Scope list_scope.

(** ** JavaScript values *)

Inductive jsval : Type :=
| JUndef
| JNull
| JBool (b : bool)
| JNum (n : Z)
| JStr (s : string)
| JArr (xs : list jsval)
| JObj (fs : list (string * jsval)).

(** Property lookup on an object, keys being distinct as in JavaScript. *)
Fixpoint lookup {A : Type} (k : string) (m : list (string * A)) : option A :=
  match m with
  | [] => None
  | (k', v) :: m' => if String.eqb k k' then Some v else lookup k m'
  end.

(** [o[k]]: [undefined] when the property is absent. *)
Definition get (k : string) (fs : list (string * jsval)) : jsval :=
  match lookup k fs with Some v => v | None => JUndef end.

(** [o[k] = v]: an existing property keeps its position, a new one is
    appended (JavaScript property order). *)
Fixpoint assoc_set {A : Type} (k : string) (v : A) (m : list (string * A))
  : list (string * A) :=
  match m with
  | [] => [(k, v)]
  | (k', v') :: m' =>
      if String.eqb k k' then (k, v) :: m' else (k', v') :: assoc_set k v m'
  end.

(** ** Cover *)

Inductive Cover := CoverNone | CoverSoft | CoverHard.

(** [enum Cover { None = 0, Soft = 1, Hard = 2 }] *)
Definition cover_value (c : Cover) : Z :=
  match c with CoverNone => 0 | CoverSoft => 1 | CoverHard => 2 end.

(** ** Plugin codecs and plugin data

    An [AccDiffPluginCodec] validates a plain value into plugin data and
    encodes plugin data back. Decoded plugin data is a live
    [AccDiffPluginData] object (it has a [hydrate] method), represented by
    [PData]; a value that the [t.type] plugins codec lets through without a
    codec for its key stays the plain value it was ([PRaw]). *)

Record codec := mkCodec {
  c_validate : jsval -> option jsval;
  c_encode : jsval -> jsval
}.

Inductive pentry := PData (d : jsval) | PRaw (v : jsval).

Definition pentry_val (e : pentry) : jsval :=
  match e with PData d => d | PRaw v => v end.

Definition plugins := list (string * pentry).

Definition schema := list (string * codec).

(** ** Entities *)

Record token := mkToken { tk_id : string; tk_actor : string }.

(** An active effect; [eff_core] is [data.flags.core] ([None] when the
    effect has no core flags), holding the optional [statusId]. *)
Record effect := mkEffect { eff_id : string; eff_core : option (option string) }.

Record AccDiffWeapon := mkWeapon {
  accurate : bool;
  inaccurate : bool;
  seeking : bool;
  w_plugins : plugins
}.

(** [#weapon] is the private back-reference, [None] before [hydrate]. *)
Record AccDiffBase := mkBase {
  b_accuracy : Z;
  b_difficulty : Z;
  b_cover : Cover;
  b_plugins : plugins;
  b_weapon : option AccDiffWeapon
}.

Record AccDiffTarget := mkTarget {
  t_target : token;
  t_accuracy : Z;
  t_difficulty : Z;
  t_cover : Cover;
  t_consumeLockOn : bool;
  t_plugins : plugins;
  t_weapon : option AccDiffWeapon;
  t_base : option AccDiffBase
}.

Record AccDiffData := mkData {
  title : string;
  d_weapon : AccDiffWeapon;
  d_base : AccDiffBase;
  d_targets : list AccDiffTarget
}.

(** ** World, exceptions and the monad *)

Inductive entity := EWeapon | EBase | ETarget (i : nat).

Inductive event :=
| EvHydrate (e : entity)
| EvSetBaseWeapon
| EvSetTargetWeapon (i : nat)
| EvSetTargetBase (i : nat).

Record world := mkWorld {
  w_tokens : list token;                    (** [canvas.scene.tokens] *)
  w_actors : list (string * list effect);   (** actor id to [data.effects] *)
  w_notes : list string;                    (** [ui.notifications.error] *)
  w_log : list event                        (** ghost log of hydration *)
}.

Inductive exn :=
| ValidationError (es : list string)
| JsError (msg : string)
| TypeError.

Inductive res (A : Type) := Ok (a : A) | Throw (e : exn).
Arguments Ok {A} a.
Arguments Throw {A} e.

Definition M (A : Type) := world -> world * res A.

Definition ret {A : Type} (a : A) : M A := fun w => (w, Ok a).

Definition bind {A B : Type} (m : M A) (k : A -> M B) : M B :=
  fun w => match m w with
           | (w', Ok a) => k a w'
           | (w', Throw e) => (w', Throw e)
           end.

Notation "x <- m ;; k" := (bind m (fun x => k))
  (at level 61, m at next level, right associativity).

Definition throw {A : Type} (e : exn) : M A := fun w => (w, Throw e).

Definition get_world : M world := fun w => (w, Ok w).

Definition notify_error (msg : string) : M unit :=
  fun w => (mkWorld (w_tokens w) (w_actors w) (w_notes w ++ [msg]) (w_log w), Ok tt).

Definition log (ev : event) : M unit :=
  fun w => (mkWorld (w_tokens w) (w_actors w) (w_notes w) (w_log w ++ [ev]), Ok tt).

(** ** io-ts validation

    [Validation A] of io-ts: success, or the list of failing paths. *)

Inductive valid (A : Type) := VOk (a : A) | VErr (es : list string).
Arguments VOk {A} a.
Arguments VErr {A} es.

Definition verrs {A : Type} (v : valid A) : list string :=
  match v with VOk _ => [] | VErr es => es end.

Definition t_boolean (path : string) (u : jsval) : valid bool :=
  match u with JBool b => VOk b | _ => VErr [path] end.

Definition t_number (path : string) (u : jsval) : valid Z :=
  match u with JNum n => VOk n | _ => VErr [path] end.

Definition t_string (path : string) (u : jsval) : valid string :=
  match u with JStr s => VOk s | _ => VErr [path] end.

(** [coverSchema = t.union([t.literal(0), t.literal(1), t.literal(2)])]:
    the first member that accepts the value wins; when none does, the union
    reports the error of each of its three members. *)
Definition coverSchema (path : string) (u : jsval) : valid Cover :=
  match u with
  | JNum 0 => VOk CoverNone
  | JNum 1 => VOk CoverSoft
  | JNum 2 => VOk CoverHard
  | _ => VErr [path; path; path]
  end.

(** [t.type(pluginSchema)]: the input must be a record; each key of the
    schema is validated by its codec ([undefined] when absent) and its
    result written into a copy of the input. Keys of the input that the
    schema does not name are kept as they are: [t.type] is not exact.
    (io-ts reads [a[k]] from the copy; the schema's keys being distinct,
    this is still the input's value when key [k] is reached.) *)
Definition plugin_step (fs : list (string * jsval))
    (acc : list string * plugins) (kc : string * codec) : list string * plugins :=
  let '(errs, a) := acc in
  match c_validate (snd kc) (get (fst kc) fs) with
  | Some d => (errs, assoc_set (fst kc) (PData d) a)
  | None => (errs ++ [fst kc], a)
  end.

Definition raw_plugins (fs : list (string * jsval)) : plugins :=
  map (fun kv => (fst kv, PRaw (snd kv))) fs.

Definition t_type_plugins (sch : schema) (u : jsval) : valid plugins :=
  match u with
  | JObj fs =>
      let '(errs, a) := fold_left (plugin_step fs) sch ([], raw_plugins fs) in
      match errs with [] => VOk a | _ => VErr errs end
  | _ => VErr ["plugins"]
  end.

(** ** Entity codecs

    [enclass(schemaCodec, C)] validates with [schemaCodec] and builds a
    [C] from the validated record. The constructors of [AccDiffWeapon] and
    [AccDiffBase] only copy the fields (back-references unset). *)

Definition AccDiffWeapon_codec (sch : schema) (u : jsval) : valid AccDiffWeapon :=
  match u with
  | JObj fs =>
      match t_boolean "accurate" (get "accurate" fs),
            t_boolean "inaccurate" (get "inaccurate" fs),
            t_boolean "seeking" (get "seeking" fs),
            t_type_plugins sch (get "plugins" fs) with
      | VOk a, VOk i, VOk s, VOk p => VOk (mkWeapon a i s p)
      | ra, ri, rs, rp => VErr (verrs ra ++ verrs ri ++ verrs rs ++ verrs rp)
      end
  | _ => VErr ["weapon"]
  end.

Definition AccDiffBase_codec (sch : schema) (u : jsval) : valid AccDiffBase :=
  match u with
  | JObj fs =>
      match t_number "accuracy" (get "accuracy" fs),
            t_number "difficulty" (get "difficulty" fs),
            coverSchema "cover" (get "cover" fs),
            t_type_plugins sch (get "plugins" fs) with
      | VOk a, VOk d, VOk c, VOk p => VOk (mkBase a d c p None)
      | ra, rd, rc, rp => VErr (verrs ra ++ verrs rd ++ verrs rc ++ verrs rp)
      end
  | _ => VErr ["base"]
  end.

(** The validated plain record of [AccDiffTarget.schemaCodec]. *)
Record target_obj := mkTargetObj {
  to_target_id : string;
  to_accuracy : Z;
  to_difficulty : Z;
  to_cover : Cover;
  to_consumeLockOn : bool;
  to_plugins : plugins
}.

Definition AccDiffTarget_schemaCodec (sch : schema) (u : jsval) : valid target_obj :=
  match u with
  | JObj fs =>
      match t_string "target_id" (get "target_id" fs),
            t_number "accuracy" (get "accuracy" fs),
            t_number "difficulty" (get "difficulty" fs),
            coverSchema "cover" (get "cover" fs),
            t_boolean "consumeLockOn" (get "consumeLockOn" fs),
            t_type_plugins sch (get "plugins" fs) with
      | VOk i, VOk a, VOk d, VOk c, VOk l, VOk p => VOk (mkTargetObj i a d c l p)
      | ri, ra, rd, rc, rl, rp =>
          VErr (verrs ri ++ verrs ra ++ verrs rd ++ verrs rc ++ verrs rl ++ verrs rp)
      end
  | _ => VErr ["target"]
  end.

(** [canvas.scene.tokens.get(id)] *)
Definition find_token (id : string) (toks : list token) : option token :=
  find (fun t => String.eqb (tk_id t) id) toks.

Definition token_not_found_msg := "Trying to access tokens from a different scene!".

(** [new AccDiffTarget(obj)]: resolves the token in the current scene or
    notifies the user and throws. *)
Definition AccDiffTarget_new (o : target_obj) : M AccDiffTarget :=
  w <- get_world ;;
  match find_token (to_target_id o) (w_tokens w) with
  | None =>
      _ <- notify_error token_not_found_msg ;;
      throw (JsError "Token not found")
  | Some tok =>
      ret (mkTarget tok (to_accuracy o) (to_difficulty o) (to_cover o)
                    (to_consumeLockOn o) (to_plugins o) None None)
  end.

Definition AccDiffTarget_codec (sch : schema) (u : jsval) : M (valid AccDiffTarget) :=
  match AccDiffTarget_schemaCodec sch u with
  | VOk o => t <- AccDiffTarget_new o ;; ret (VOk t)
  | VErr es => ret (VErr es)
  end.

(** [t.array(AccDiffTarget.codec)]: every element is validated, errors
    are collected; an exception of a constructor escapes at once. *)
Fixpoint t_array_targets (sch : schema) (xs : list jsval) : M (valid (list AccDiffTarget)) :=
  match xs with
  | [] => ret (VOk [])
  | x :: xs' =>
      r <- AccDiffTarget_codec sch x ;;
      rs <- t_array_targets sch xs' ;;
      ret (match r, rs with
           | VOk t, VOk ts => VOk (t :: ts)
           | _, _ => VErr (verrs r ++ verrs rs)
           end)
  end.

Definition targets_codec (sch : schema) (u : jsval) : M (valid (list AccDiffTarget)) :=
  match u with
  | JArr xs => t_array_targets sch xs
  | _ => ret (VErr ["targets"])
  end.

(** ** Hydration

    [hydrate] of an entity calls [hydrate] on every entry of its
    [plugins] map. Modelled from the spec: the [hydrate] of an
    [AccDiffPluginData] (plugin.ts, not in the sources) is invoked once the
    entity and the aggregate exist and wires the plugin to them; it changes
    no modelled state. A plain value kept by [t.type] has no [hydrate]
    method, and calling it throws a [TypeError]. *)
Fixpoint plugins_hydrate (m : plugins) : M unit :=
  match m with
  | [] => ret tt
  | (_, PData _) :: m' => plugins_hydrate m'
  | (_, PRaw _) :: _ => throw TypeError
  end.

(** [AccDiffWeapon.hydrate(d)] *)
Definition AccDiffWeapon_hydrate (d : AccDiffData) (wp : AccDiffWeapon) : M unit :=
  _ <- log (EvHydrate EWeapon) ;;
  plugins_hydrate (w_plugins wp).

(** [AccDiffBase.hydrate(d)]: [this.#weapon = d.weapon], then the plugins. *)
Definition AccDiffBase_hydrate (d : AccDiffData) (b : AccDiffBase) : M AccDiffBase :=
  _ <- log (EvHydrate EBase) ;;
  _ <- log EvSetBaseWeapon ;;
  let b' := mkBase (b_accuracy b) (b_difficulty b) (b_cover b) (b_plugins b)
                   (Some (d_weapon d)) in
  _ <- plugins_hydrate (b_plugins b') ;;
  ret b'.

(** [AccDiffTarget.hydrate(d)]: [this.#weapon = d.weapon],
    [this.#base = d.base], then the plugins; [i] is the target's index. *)
Definition AccDiffTarget_hydrate (d : AccDiffData) (i : nat) (t : AccDiffTarget)
  : M AccDiffTarget :=
  _ <- log (EvHydrate (ETarget i)) ;;
  _ <- log (EvSetTargetWeapon i) ;;
  _ <- log (EvSetTargetBase i) ;;
  let t' := mkTarget (t_target t) (t_accuracy t) (t_difficulty t) (t_cover t)
                     (t_consumeLockOn t) (t_plugins t)
                     (Some (d_weapon d)) (Some (d_base d)) in
  _ <- plugins_hydrate (t_plugins t') ;;
  ret t'.

(** [for (let target of this.targets) { target.hydrate(this); }] *)
Fixpoint targets_hydrate (d : AccDiffData) (i : nat) (ts : list AccDiffTarget)
  : M (list AccDiffTarget) :=
  match ts with
  | [] => ret []
  | t :: ts' =>
      t' <- AccDiffTarget_hydrate d i t ;;
      ts'' <- targets_hydrate d (S i) ts' ;;
      ret (t' :: ts'')
  end.

(** [new AccDiffData(obj)]. Hydration mutates the components in place;
    the value [d] each [hydrate] sees is the aggregate as it stands at
    that point (the base already hydrated when the targets are). *)
Definition AccDiffData_new (ttl : string) (wp : AccDiffWeapon) (b : AccDiffBase)
    (ts : list AccDiffTarget) : M AccDiffData :=
  let d0 := mkData ttl wp b ts in
  _ <- AccDiffWeapon_hydrate d0 (d_weapon d0) ;;
  b' <- AccDiffBase_hydrate d0 (d_base d0) ;;
  let d1 := mkData ttl wp b' ts in
  ts' <- targets_hydrate d1 0 (d_targets d1) ;;
  ret (mkData ttl wp b' ts').

(** [AccDiffData.codec = enclass(t.type(AccDiffData.schema), AccDiffData)] *)
Definition AccDiffData_codec (wsch bsch tsch : schema) (u : jsval) : M (valid AccDiffData) :=
  match u with
  | JObj fs =>
      let rt := t_string "title" (get "title" fs) in
      let rw := AccDiffWeapon_codec wsch (get "weapon" fs) in
      let rb := AccDiffBase_codec bsch (get "base" fs) in
      rts <- targets_codec tsch (get "targets" fs) ;;
      match rt, rw, rb, rts with
      | VOk ttl, VOk wp, VOk b, VOk ts => d <- AccDiffData_new ttl wp b ts ;; ret (VOk d)
      | _, _, _, _ => ret (VErr (verrs rt ++ verrs rw ++ verrs rb ++ verrs rts))
      end
  | _ => ret (VErr ["AccDiffData"])
  end.

(** Modelled from the spec: [decode] of serde.ts (not in the sources) runs
    the codec's validation and throws a [ValidationError] listing every
    failing path. *)
Definition decode {A : Type} (v : M (valid A)) : M A :=
  r <- v ;;
  match r with
  | VOk a => ret a
  | VErr es => throw (ValidationError es)
  end.

(** ** Encoding

    Modelled from the spec: [encode] of serde.ts and the encoder of
    [enclass] (not in the sources) encode the instance's [raw] record with
    the schema codec. [t.type(..).encode] copies its input and replaces
    each schema key by the key's codec's encoding. *)
Definition encode_plugins (sch : schema) (m : plugins) : jsval :=
  JObj (fold_left
          (fun s kc => assoc_set (fst kc)
                         (c_encode (snd kc)
                            (match lookup (fst kc) m with
                             | Some e => pentry_val e | None => JUndef end)) s)
          sch (map (fun ke => (fst ke, pentry_val (snd ke))) m)).

Definition encode_weapon (sch : schema) (wp : AccDiffWeapon) : jsval :=
  JObj [("accurate", JBool (accurate wp)); ("inaccurate", JBool (inaccurate wp));
        ("seeking", JBool (seeking wp)); ("plugins", encode_plugins sch (w_plugins wp))].

Definition encode_base (sch : schema) (b : AccDiffBase) : jsval :=
  JObj [("accuracy", JNum (b_accuracy b)); ("difficulty", JNum (b_difficulty b));
        ("cover", JNum (cover_value (b_cover b)));
        ("plugins", encode_plugins sch (b_plugins b))].

(** [raw.target_id] is [this.target.id], the id of the resolved token. *)
Definition encode_target (sch : schema) (t : AccDiffTarget) : jsval :=
  JObj [("target_id", JStr (tk_id (t_target t))); ("accuracy", JNum (t_accuracy t));
        ("difficulty", JNum (t_difficulty t)); ("cover", JNum (cover_value (t_cover t)));
        ("consumeLockOn", JBool (t_consumeLockOn t));
        ("plugins", encode_plugins sch (t_plugins t))].

Definition encode_data (wsch bsch tsch : schema) (d : AccDiffData) : jsval :=
  JObj [("title", JStr (title d)); ("weapon", encode_weapon wsch (d_weapon d));
        ("base", encode_base bsch (d_base d));
        ("targets", JArr (map (encode_target tsch) (d_targets d)))].

(** ** Plugin registry *)

(** An [AccDiffPlugin]: its slug, codec and optional default producers for
    the three extension points ([perRoll] receives the optional item). *)
Record AccDiffPlugin := mkPlugin {
  slug : string;
  p_codec : codec;
  perRoll : option (option jsval -> jsval);
  perUnknownTarget : option (unit -> jsval);
  perTarget : option (token -> jsval)
}.

(** The class-level mutable state: the three [pluginSchema] maps and the
    [plugins] and [targetedPlugins] lists of [AccDiffData]. *)
Record registry := mkRegistry {
  weaponSchema : schema;
  baseSchema : schema;
  targetSchema : schema;
  r_plugins : list AccDiffPlugin;
  r_targetedPlugins : list AccDiffPlugin
}.

Definition empty_registry : registry := mkRegistry [] [] [] [] [].

Definition registerPlugin (r : registry) (p : AccDiffPlugin) : registry :=
  mkRegistry
    (match perRoll p with
     | Some _ => assoc_set (slug p) (p_codec p) (weaponSchema r)
     | None => weaponSchema r end)
    (match perUnknownTarget p with
     | Some _ => assoc_set (slug p) (p_codec p) (baseSchema r)
     | None => baseSchema r end)
    (match perTarget p with
     | Some _ => assoc_set (slug p) (p_codec p) (targetSchema r)
     | None => targetSchema r end)
    (r_plugins r ++ [p])
    (match perTarget p with
     | Some _ => r_targetedPlugins r ++ [p]
     | None => r_targetedPlugins r end).

(** [AccDiffData.fromObject(obj)] *)
Definition fromObject (r : registry) (u : jsval) : M AccDiffData :=
  decode (AccDiffData_codec (weaponSchema r) (baseSchema r) (targetSchema r) u).

(** [d.toObject()] *)
Definition toObject (r : registry) (d : AccDiffData) : jsval :=
  encode_data (weaponSchema r) (baseSchema r) (targetSchema r) d.

(** ** Totals *)

(** [AccDiffBase.total]; reading [this.#weapon.accurate] before hydration
    throws a [TypeError]. *)
Definition AccDiffBase_total (b : AccDiffBase) : res Z :=
  match b_weapon b with
  | None => Throw TypeError
  | Some wp =>
      Ok (b_accuracy b - b_difficulty b
          + (if accurate wp then 1 else 0)
          - (if inaccurate wp then 1 else 0)
          - (if seeking wp then 0 else cover_value (b_cover b)))%Z
  end.

(** [actor.data.effects.find(eff => eff.data.flags.core.statusId == "lockon")] *)
Fixpoint find_lockon (effs : list effect) : res (option effect) :=
  match effs with
  | [] => Ok None
  | e :: es =>
      match eff_core e with
      | None => Throw TypeError
      | Some sid =>
          if match sid with Some s => String.eqb s "lockon" | None => false end
          then Ok (Some e) else find_lockon es
      end
  end.

(** [get lockOnAvailable()]: reads the world, writes nothing. *)
Definition lockOnAvailable (t : AccDiffTarget) : M (option effect) :=
  fun w =>
    (w, match lookup (tk_actor (t_target t)) (w_actors w) with
        | None => Throw TypeError
        | Some effs => find_lockon effs
        end).

(** [get usingLockOn()]: [(this.consumeLockOn && this.lockOnAvailable) || null];
    the effect returned carries its [delete] for the caller. *)
Definition usingLockOn (t : AccDiffTarget) : M (option effect) :=
  if t_consumeLockOn t then lockOnAvailable t else ret None.

(** [AccDiffTarget.total] *)
Definition AccDiffTarget_total (t : AccDiffTarget) : M Z :=
  match t_weapon t with
  | None => throw TypeError
  | Some wp =>
      let base := (t_accuracy t - t_difficulty t
                   + (if accurate wp then 1 else 0)
                   - (if inaccurate wp then 1 else 0)
                   - (if seeking wp then 0 else cover_value (t_cover t)))%Z in
      match t_base t with
      | None => throw TypeError
      | Some b =>
          let raw := (base + b_accuracy b - b_difficulty b)%Z in
          u <- usingLockOn t ;;
          let lockon := match u with Some _ => 1%Z | None => 0%Z end in
          ret (raw + lockon)%Z
      end
  end.

(** The [delete()] of an effect handle: removes the effect from its actor. *)
Definition effect_delete (actor : string) (e : effect) : M unit :=
  fun w =>
    (mkWorld (w_tokens w)
       (map (fun ae => if String.eqb (fst ae) actor
                       then (fst ae, filter (fun e' => negb (String.eqb (eff_id e') (eff_id e))) (snd ae))
                       else ae) (w_actors w))
       (w_notes w) (w_log w), Ok tt).

(** ** [AccDiffData.fromParams] *)

Record TagInstance := mkTag { LID : string }.

(** The [switch (tag.Tag.LID)] over the tags. *)
Definition tag_step (f : bool * bool * bool) (tg : TagInstance) : bool * bool * bool :=
  let '(a, i, s) := f in
  if String.eqb (LID tg) "tg_accurate" then (true, i, s)
  else if String.eqb (LID tg) "tg_inaccurate" then (a, true, s)
  else if String.eqb (LID tg) "tg_seeking" then (a, i, true)
  else (a, i, s).

Definition weapon_flags (tags : list TagInstance) : bool * bool * bool :=
  fold_left tag_step tags (false, false, false).

Definition title_of (ttl : option string) : string :=
  match ttl with
  | Some t => if String.eqb t "" then "Accuracy and Difficulty"
              else String.append t " - Accuracy and Difficulty"
  | None => "Accuracy and Difficulty"
  end.

(** [ret.plugins[plugin.slug] = encode(plugin.perTarget!(t), plugin.codec)]
    for each targeted plugin (all of which have [perTarget]). *)
Definition target_plugin_defaults (tps : list AccDiffPlugin) (t : token)
  : list (string * jsval) :=
  fold_left (fun acc p =>
               match perTarget p with
               | Some f => assoc_set (slug p) (c_encode (p_codec p) (f t)) acc
               | None => acc
               end) tps [].

Definition target_default (tps : list AccDiffPlugin) (t : token) : jsval :=
  JObj [("target_id", JStr (tk_id t)); ("accuracy", JNum 0); ("difficulty", JNum 0);
        ("cover", JNum (cover_value CoverNone)); ("consumeLockOn", JBool true);
        ("plugins", JObj (target_plugin_defaults tps t))].

Definition weapon_plugin_defaults (ps : list AccDiffPlugin) (item : option jsval)
  : list (string * jsval) :=
  fold_left (fun acc p =>
               match perRoll p with
               | Some f => assoc_set (slug p) (c_encode (p_codec p) (f item)) acc
               | None => acc
               end) ps [].

Definition base_plugin_defaults (ps : list AccDiffPlugin) : list (string * jsval) :=
  fold_left (fun acc p =>
               match perUnknownTarget p with
               | Some f => assoc_set (slug p) (c_encode (p_codec p) (f tt)) acc
               | None => acc
               end) ps [].

Definition fromParams (r : registry) (item : option jsval)
    (tags : option (list TagInstance)) (ttl : option string)
    (targets : option (list token)) (starting : option (Z * Z)) : M AccDiffData :=
  let '(a, i, s) := weapon_flags (match tags with Some l => l | None => [] end) in
  let weapon := JObj [("accurate", JBool a); ("inaccurate", JBool i); ("seeking", JBool s);
                      ("plugins", JObj (weapon_plugin_defaults (r_plugins r) item))] in
  let base := JObj [("cover", JNum (cover_value CoverNone));
                    ("accuracy", JNum (match starting with Some (x, _) => x | None => 0%Z end));
                    ("difficulty", JNum (match starting with Some (_, y) => y | None => 0%Z end));
                    ("plugins", JObj (base_plugin_defaults (r_plugins r)))] in
  let obj := JObj [("title", JStr (title_of ttl)); ("weapon", weapon); ("base", base);
                   ("targets", JArr (map (target_default (r_targetedPlugins r))
                                         (match targets with Some l => l | None => [] end)))] in
  fromObject r obj.

(** ** [AccDiffForm] *)

(** [AccDiffView = AccDiffData & { hasTargets, hasExactlyOneTarget }] *)
Record AccDiffView := mkView {
  view_data : AccDiffData;
  hasTargets : bool;
  hasExactlyOneTarget : bool
}.

(** [getViewModel(data)]: [hasTargets = targets.length > 1],
    [hasExactlyOneTarget = targets.length == 1]. *)
Definition getViewModel (d : AccDiffData) : AccDiffView :=
  mkView d (Nat.ltb 1 (length (d_targets d))) (Nat.eqb (length (d_targets d)) 1).

(** ** Auxiliary definitions for the statements *)

(** Keys of every JavaScript object are distinct. *)
Fixpoint nodupb (l : list string) : bool :=
  match l with
  | [] => true
  | x :: l' => negb (existsb (String.eqb x) l') && nodupb l'
  end.

Fixpoint wf_js (u : jsval) : bool :=
  match u with
  | JArr xs => (fix go (xs : list jsval) : bool :=
                  match xs with [] => true | x :: xs' => wf_js x && go xs' end) xs
  | JObj fs => nodupb (map fst fs) &&
               (fix go (fs : list (string * jsval)) : bool :=
                  match fs with [] => true | (_, v) :: fs' => wf_js v && go fs' end) fs
  | _ => true
  end.

Definition is_data (ke : string * pentry) : bool :=
  match snd ke with PData _ => true | PRaw _ => false end.

Definition no_raw (m : plugins) : bool := forallb is_data m.

(** The state of a base and a target after [hydrate]. *)
Definition hyd_base (wp : AccDiffWeapon) (b : AccDiffBase) : AccDiffBase :=
  mkBase (b_accuracy b) (b_difficulty b) (b_cover b) (b_plugins b) (Some wp).

Definition hyd_target (wp : AccDiffWeapon) (b : AccDiffBase) (t : AccDiffTarget)
  : AccDiffTarget :=
  mkTarget (t_target t) (t_accuracy t) (t_difficulty t) (t_cover t)
           (t_consumeLockOn t) (t_plugins t) (Some wp) (Some b).

Definition base_with_cover (b : AccDiffBase) (c : Cover) : AccDiffBase :=
  mkBase (b_accuracy b) (b_difficulty b) c (b_plugins b) (b_weapon b).

Definition log_many (w : world) (evs : list event) : world :=
  mkWorld (w_tokens w) (w_actors w) (w_notes w) (w_log w ++ evs).

Definition notified (w : world) (msg : string) : world :=
  mkWorld (w_tokens w) (w_actors w) (w_notes w ++ [msg]) (w_log w).

Definition target_trace (i : nat) : list event :=
  [EvHydrate (ETarget i); EvSetTargetWeapon i; EvSetTargetBase i].

Definition targets_trace (i n : nat) : list event :=
  concat (map target_trace (seq i n)).

(** The events of [new AccDiffData] with [n] targets. *)
Definition hydration_trace (n : nat) : list event :=
  [EvHydrate EWeapon; EvHydrate EBase; EvSetBaseWeapon] ++ targets_trace 0 n.

(** The io-ts codec law of a plugin codec, on the values it decodes to. *)
Definition codec_law (c : codec) : Prop :=
  forall u d, c_validate c u = Some d -> c_validate c (c_encode c d) = Some d.

(** The registry after registering the plugins [ps] in order. *)
Definition registry_of (ps : list AccDiffPlugin) : registry :=
  fold_left registerPlugin ps empty_registry.

(** The shape of a decoded and hydrated [plugins] map: distinct keys,
    every schema key present, and each entry plugin data that the key's
    codec decoded. *)
Definition plugins_ok (sch : schema) (m : plugins) : Prop :=
  NoDup (map fst m) /\ incl (map fst sch) (map fst m) /\
  forall k e, In (k, e) m ->
    exists c d u, lookup k sch = Some c /\ e = PData d /\ c_validate c u = Some d.

(** A target element [x] of the input and the [AccDiffTarget] that
    [AccDiffTarget.codec] built from it in a scene with tokens [toks]. *)
Definition target_decoded (sch : schema) (toks : list token) (x : jsval)
    (t : AccDiffTarget) : Prop :=
  exists o, AccDiffTarget_schemaCodec sch x = VOk o /\
    find_token (to_target_id o) toks = Some (t_target t) /\
    t = mkTarget (t_target t) (to_accuracy o) (to_difficulty o) (to_cover o)
                 (to_consumeLockOn o) (to_plugins o) None None.

(** A plugin schema and a plain plugin map with the same keys, both
    distinct, the map's value at each key accepted by the key's codec. *)
Definition plugin_defaults_valid (sch : schema) (defs : list (string * jsval)) : Prop :=
  NoDup (map fst sch) /\ NoDup (map fst defs) /\
  forall k, match lookup k sch, lookup k defs with
            | Some c, Some v => c_validate c v <> None
            | None, None => True
            | _, _ => False
            end.

(** A plugin schema with distinct keys whose codecs all obey [codec_law]. *)
Definition schema_lawful (sch : schema) : Prop :=
  NoDup (map fst sch) /\ forall k c, In (k, c) sch -> codec_law c.

(** The schema keys whose codec rejects the input's value at that key. *)
Definition plugin_fails (fs : list (string * jsval)) (sch : schema) : list string :=
  map fst (filter (fun kc => match c_validate (snd kc) (get (fst kc) fs) with
                             | Some _ => false | None => true end) sch).

(** ** Concrete inputs *)

Definition tokA := mkToken "A" "actA".
Definition tokB := mkToken "B" "actB".
Definition lockon_effect := mkEffect "e1" (Some (Some "lockon")).

Definition world_ex : world :=
  mkWorld [tokA; tokB] [("actA", [lockon_effect]); ("actB", [])] [] [].

Definition weapon_ex := mkWeapon false false false [].
Definition base_ex := hyd_base weapon_ex (mkBase 1 0 CoverNone [] None).
Definition targetA_ex :=
  hyd_target weapon_ex base_ex (mkTarget tokA 0 0 CoverNone true [] None None).



(** A boolean plugin codec, rejecting [undefined]. *)
Definition bool_codec : codec :=
  mkCodec (fun v => match v with JBool b => Some (JBool b) | _ => None end) (fun v => v).



Definition data_fields_unknown : list (string * jsval) :=
  [("title", JStr "Shot");
   ("weapon", JObj [("accurate", JBool false); ("inaccurate", JBool false);
                    ("seeking", JBool false); ("plugins", JObj [("zzz", JBool true)])]);
   ("base", JObj [("accuracy", JNum 0); ("difficulty", JNum 0); ("cover", JNum 0);
                  ("plugins", JObj [])]);
   ("targets", JArr [])].

Definition data_json_unknown : jsval := JObj data_fields_unknown.

(** An input whose weapon [plugins] map lacks a registered key. *)
Definition data_fields_missing : list (string * jsval) :=
  [("title", JStr "Shot");
   ("weapon", JObj [("accurate", JBool false); ("inaccurate", JBool false);
                    ("seeking", JBool false); ("plugins", JObj [])]);
   ("base", JObj [("accuracy", JNum 0); ("difficulty", JNum 0); ("cover", JNum 0);
                  ("plugins", JObj [])]);
   ("targets", JArr [])].

Definition weapon_raw_ex := mkWeapon false false false [("zzz", PRaw (JBool true))].

(** A plugin ["inv"] with a boolean codec, used per roll and per target. *)
Definition inv_plugin : AccDiffPlugin :=
  mkPlugin "inv" bool_codec (Some (fun _ => JBool false)) None (Some (fun _ => JBool false)).

Definition data_json_inv : jsval :=
  JObj [("title", JStr "Shot");
        ("weapon", JObj [("accurate", JBool true); ("inaccurate", JBool false);
                         ("seeking", JBool false); ("plugins", JObj [("inv", JBool false)])]);
        ("base", JObj [("accuracy", JNum 1); ("difficulty", JNum 2); ("cover", JNum 1);
                       ("plugins", JObj [])]);
        ("targets", JArr [JObj [("target_id", JStr "A"); ("accuracy", JNum 0);
                                ("difficulty", JNum 1); ("cover", JNum 2);
                                ("consumeLockOn", JBool true);
                                ("plugins", JObj [("inv", JBool true)])]])].

Definition weapon_inv_ex := mkWeapon true false false [("inv", PData (JBool false))].
Definition base_inv_ex := hyd_base weapon_inv_ex (mkBase 1 2 CoverSoft [] None).
Definition data_inv_ex : AccDiffData :=
  mkData "Shot" weapon_inv_ex base_inv_ex
    [hyd_target weapon_inv_ex base_inv_ex
       (mkTarget tokA 0 1 CoverHard true [("inv", PData (JBool true))] None None)].

(** A [plugins] sub-map of the entity object [u] holding a key [k] that
    the schema [sch] does not name. *)
Definition unknown_plugin_key (sch : schema) (u : jsval) (k : string) : Prop :=
  exists ef pf, u = JObj ef /\ get "plugins" ef = JObj pf /\
                In k (map fst pf) /\ ~ In k (map fst sch).

(** A [plugins] sub-map of the entity object [u] lacking a key [k] that
    the schema [sch] names with a codec rejecting [undefined]. *)
Definition missing_plugin_key (sch : schema) (u : jsval) (k : string) : Prop :=
  exists ef pf c, u = JObj ef /\ get "plugins" ef = JObj pf /\
                  lookup k sch = Some c /\ lookup k pf = None /\ c_validate c JUndef = None.

(** [P] holds of the weapon, the base or one target element of the plain
    object [fs], each with its entity's registered schema. *)
Definition in_some_entity (P : schema -> jsval -> string -> Prop) (r : registry)
    (fs : list (string * jsval)) (k : string) : Prop :=
  P (weaponSchema r) (get "weapon" fs) k \/ P (baseSchema r) (get "base" fs) k \/
  exists xs x, get "targets" fs = JArr xs /\ In x xs /\ P (targetSchema r) x k.

(** * Properties *)

(** ** Monad and world lemmas *)

Lemma usingLockOn_reads_only (t : AccDiffTarget) (w : world) :
  usingLockOn t w = (w, snd (usingLockOn t w)).
Proof.
  unfold usingLockOn, lockOnAvailable, ret.
  destruct (t_consumeLockOn t); reflexivity.
Qed.

(** ** Totals *)

(** C2: the total of a hydrated [AccDiffBase] is
    [accuracy - difficulty + (accurate ? 1 : 0) - (inaccurate ? 1 : 0)
    - (seeking ? 0 : cover)]; changing the cover lowers it by exactly the
    cover's ordinal (None 0, Soft 1, Hard 2) when the weapon is not
    seeking and leaves it unchanged when it is. *)
Theorem AccDiffBase_total_formula (b : AccDiffBase) (wp : AccDiffWeapon)
  (Hhyd : b_weapon b = Some wp) :
  AccDiffBase_total b =
    Ok (b_accuracy b - b_difficulty b
        + (if accurate wp then 1 else 0)
        - (if inaccurate wp then 1 else 0)
        - (if seeking wp then 0 else cover_value (b_cover b)))%Z
  /\ (exists z, AccDiffBase_total (base_with_cover b CoverNone) = Ok z /\
        forall c, AccDiffBase_total (base_with_cover b c) =
                  Ok (z - (if seeking wp then 0 else cover_value c))%Z)
  /\ cover_value CoverNone = 0%Z /\ cover_value CoverSoft = 1%Z
  /\ cover_value CoverHard = 2%Z.
Proof.
  unfold AccDiffBase_total, base_with_cover; simpl.
  rewrite Hhyd.
  split; [reflexivity |].
  split; [| repeat split].
  eexists; split; [reflexivity |].
  intros c; f_equal; destruct (seeking wp); simpl; lia.
Qed.

Lemma AccDiffBase_total_formula_witness :
  b_weapon base_ex = Some weapon_ex /\ AccDiffBase_total base_ex = Ok 1%Z.
Proof.
  split; [reflexivity |].
  destruct (AccDiffBase_total_formula base_ex weapon_ex eq_refl) as [H _].
  rewrite H; reflexivity.
Defined.

(** C3: the total of a hydrated [AccDiffTarget] is its own
    [accuracy - difficulty + (accurate ? 1 : 0) - (inaccurate ? 1 : 0)
    - (seeking ? 0 : cover)] plus the base's [accuracy - difficulty] (the
    base's weapon and cover terms are not added again) plus 1 exactly when
    [usingLockOn] returns an effect; an integer, not clamped. *)
Theorem AccDiffTarget_total_formula (t : AccDiffTarget) (wp : AccDiffWeapon)
  (b : AccDiffBase) (w : world)
  (Hw : t_weapon t = Some wp) (Hb : t_base t = Some b) :
  AccDiffTarget_total t w =
    match usingLockOn t w with
    | (w', Ok u) =>
        (w', Ok (t_accuracy t - t_difficulty t
                 + (if accurate wp then 1 else 0)
                 - (if inaccurate wp then 1 else 0)
                 - (if seeking wp then 0 else cover_value (t_cover t))
                 + (b_accuracy b - b_difficulty b)
                 + (match u with Some _ => 1 | None => 0 end))%Z)
    | (w', Throw e) => (w', Throw e)
    end.
Proof.
  unfold AccDiffTarget_total; rewrite Hw, Hb.
  unfold bind, ret.
  destruct (usingLockOn t w) as [w' [u | e]]; [| reflexivity].
  f_equal; f_equal; lia.
Qed.

Lemma AccDiffTarget_total_formula_witness :
  t_weapon (mkTarget tokB 0 3 CoverSoft false [] (Some weapon_ex) (Some base_ex)) = Some weapon_ex
  /\ t_base (mkTarget tokB 0 3 CoverSoft false [] (Some weapon_ex) (Some base_ex)) = Some base_ex
  /\ AccDiffTarget_total (mkTarget tokB 0 3 CoverSoft false [] (Some weapon_ex) (Some base_ex))
       world_ex = (world_ex, Ok (-3)%Z).
Proof.
  split; [reflexivity | split; [reflexivity |]].
  rewrite (AccDiffTarget_total_formula
             (mkTarget tokB 0 3 CoverSoft false [] (Some weapon_ex) (Some base_ex))
             weapon_ex base_ex world_ex eq_refl eq_refl).
  vm_compute; reflexivity.
Defined.

(** C4 fails: [targetA_ex] consumes lock-on and its actor has a "lockon"
    effect; [total] counts the bonus, and a second evaluation counts it
    again: the effect is still there. *)
Lemma lockon_not_consumed_counterexample :
  t_consumeLockOn targetA_ex = true /\
  usingLockOn targetA_ex world_ex = (world_ex, Ok (Some lockon_effect)) /\
  AccDiffTarget_total targetA_ex world_ex = (world_ex, Ok 2%Z) /\
  AccDiffTarget_total targetA_ex (fst (AccDiffTarget_total targetA_ex world_ex))
    = (world_ex, Ok 2%Z).
Proof. vm_compute. repeat split. Qed.

(** C4 (amended): for a hydrated target with [consumeLockOn] whose actor
    has a "lockon" effect, [usingLockOn] returns that effect (a handle whose
    [delete] the caller may invoke) and [total] includes the +1 bonus, but
    evaluating [total] deletes nothing: the world is unchanged, so a second
    evaluation includes the bonus again. *)
Theorem lockon_bonus_not_consumed (t : AccDiffTarget) (wp : AccDiffWeapon)
  (b : AccDiffBase) (w : world) (effs : list effect) (e : effect)
  (Hw : t_weapon t = Some wp) (Hb : t_base t = Some b)
  (Hc : t_consumeLockOn t = true)
  (Ha : lookup (tk_actor (t_target t)) (w_actors w) = Some effs)
  (Hl : find_lockon effs = Ok (Some e)) :
  usingLockOn t w = (w, Ok (Some e)) /\
  AccDiffTarget_total t w =
    (w, Ok (t_accuracy t - t_difficulty t
            + (if accurate wp then 1 else 0)
            - (if inaccurate wp then 1 else 0)
            - (if seeking wp then 0 else cover_value (t_cover t))
            + (b_accuracy b - b_difficulty b) + 1)%Z) /\
  AccDiffTarget_total t (fst (AccDiffTarget_total t w)) = AccDiffTarget_total t w.
Proof.
  assert (HU : usingLockOn t w = (w, Ok (Some e))).
  { unfold usingLockOn, lockOnAvailable; rewrite Hc, Ha, Hl; reflexivity. }
  assert (HT : AccDiffTarget_total t w =
    (w, Ok (t_accuracy t - t_difficulty t
            + (if accurate wp then 1 else 0)
            - (if inaccurate wp then 1 else 0)
            - (if seeking wp then 0 else cover_value (t_cover t))
            + (b_accuracy b - b_difficulty b) + 1)%Z)).
  { unfold AccDiffTarget_total; rewrite Hw, Hb.
    unfold bind, ret; rewrite HU.
    f_equal; f_equal; lia. }
  split; [exact HU |].
  split; [exact HT |].
  rewrite HT; exact HT.
Qed.

Lemma lockon_bonus_not_consumed_witness :
  usingLockOn targetA_ex world_ex = (world_ex, Ok (Some lockon_effect)) /\
  AccDiffTarget_total targetA_ex world_ex = (world_ex, Ok 2%Z).
Proof.
  destruct (lockon_bonus_not_consumed targetA_ex weapon_ex base_ex world_ex
              [lockon_effect] lockon_effect eq_refl eq_refl eq_refl eq_refl eq_refl)
    as [HU [HT _]].
  split; [exact HU |].
  rewrite HT; reflexivity.
Defined.

(** C7: evaluating [total] writes nothing: [AccDiffTarget.total] leaves
    the world (actors, their effects, tokens, notifications, the
    back-reference log) as it was and, evaluated again, gives the same
    result; [AccDiffBase.total] is a function of the base alone
    ([AccDiffBase_total] has no world to change) and neither returns a
    modified entity. *)
Theorem totals_do_not_mutate (t : AccDiffTarget) (w : world) :
  fst (AccDiffTarget_total t w) = w /\
  AccDiffTarget_total t (fst (AccDiffTarget_total t w)) = AccDiffTarget_total t w.
Proof.
  assert (H : fst (AccDiffTarget_total t w) = w).
  { unfold AccDiffTarget_total, bind, ret, throw.
    destruct (t_weapon t); [| reflexivity].
    destruct (t_base t); [| reflexivity].
    rewrite usingLockOn_reads_only.
    destruct (snd (usingLockOn t w)); reflexivity. }
  split; [exact H | rewrite H; reflexivity].
Qed.

(** ** Hydration *)

Lemma bind_ok_inv {A B : Type} (m : M A) (k : A -> M B) (w w' : world) (b : B) :
  bind m k w = (w', Ok b) -> exists a w1, m w = (w1, Ok a) /\ k a w1 = (w', Ok b).
Proof.
  unfold bind. destruct (m w) as [w1 [a | e]]; intros H; [eauto | inversion H].
Qed.

Lemma log_many_nil (w : world) : log_many w [] = w.
Proof. destruct w; unfold log_many; simpl; rewrite app_nil_r; reflexivity. Qed.

Lemma log_many_app (w : world) (a b : list event) :
  log_many (log_many w a) b = log_many w (a ++ b).
Proof. destruct w; unfold log_many; simpl; rewrite app_assoc; reflexivity. Qed.

Lemma plugins_hydrate_spec (m : plugins) (w : world) :
  plugins_hydrate m w = (w, if no_raw m then Ok tt else Throw TypeError).
Proof.
  unfold no_raw; induction m as [| [k [d | v]] m IH]; simpl; [reflexivity | exact IH | reflexivity].
Qed.

Lemma AccDiffWeapon_hydrate_spec (d : AccDiffData) (wp : AccDiffWeapon) (w : world) :
  AccDiffWeapon_hydrate d wp w =
    (log_many w [EvHydrate EWeapon],
     if no_raw (w_plugins wp) then Ok tt else Throw TypeError).
Proof.
  unfold AccDiffWeapon_hydrate, bind, log; simpl.
  rewrite plugins_hydrate_spec; reflexivity.
Qed.

Lemma AccDiffBase_hydrate_spec (d : AccDiffData) (b : AccDiffBase) (w : world) :
  AccDiffBase_hydrate d b w =
    (log_many w [EvHydrate EBase; EvSetBaseWeapon],
     if no_raw (b_plugins b) then Ok (hyd_base (d_weapon d) b) else Throw TypeError).
Proof.
  unfold AccDiffBase_hydrate, bind, log, ret; simpl.
  rewrite plugins_hydrate_spec; simpl.
  rewrite <- app_assoc; simpl.
  destruct (no_raw (b_plugins b)); reflexivity.
Qed.

Lemma AccDiffTarget_hydrate_spec (d : AccDiffData) (i : nat) (t : AccDiffTarget) (w : world) :
  AccDiffTarget_hydrate d i t w =
    (log_many w (target_trace i),
     if no_raw (t_plugins t)
     then Ok (hyd_target (d_weapon d) (d_base d) t) else Throw TypeError).
Proof.
  unfold AccDiffTarget_hydrate, bind, log, ret; simpl.
  rewrite plugins_hydrate_spec; simpl.
  rewrite <- !app_assoc; simpl.
  destruct (no_raw (t_plugins t)); reflexivity.
Qed.

Lemma targets_trace_S (i n : nat) :
  targets_trace i (S n) = target_trace i ++ targets_trace (S i) n.
Proof. reflexivity. Qed.

Lemma targets_hydrate_inv (d : AccDiffData) (i : nat) (ts : list AccDiffTarget)
  (w w' : world) (ts' : list AccDiffTarget) :
  targets_hydrate d i ts w = (w', Ok ts') ->
  ts' = map (hyd_target (d_weapon d) (d_base d)) ts /\
  w' = log_many w (targets_trace i (length ts)) /\
  forallb (fun t => no_raw (t_plugins t)) ts = true.
Proof.
  revert i w w' ts'.
  induction ts as [| t ts IH]; intros i w w' ts' H.
  - simpl in H; unfold ret in H; inversion H; subst.
    rewrite log_many_nil; auto.
  - simpl in H.
    apply bind_ok_inv in H as [t1 [w1 [H1 H2]]].
    apply bind_ok_inv in H2 as [ts1 [w2 [H3 H4]]].
    unfold ret in H4; inversion H4; subst; clear H4.
    rewrite AccDiffTarget_hydrate_spec in H1.
    case_eq (no_raw (t_plugins t)); intros Et; rewrite Et in H1;
      inversion H1; subst; clear H1.
    destruct (IH _ _ _ _ H3) as [-> [-> Hall]].
    simpl; rewrite Et, Hall, log_many_app; auto.
Qed.

Lemma targets_hydrate_ok (d : AccDiffData) (i : nat) (ts : list AccDiffTarget) (w : world) :
  forallb (fun t => no_raw (t_plugins t)) ts = true ->
  targets_hydrate d i ts w =
    (log_many w (targets_trace i (length ts)),
     Ok (map (hyd_target (d_weapon d) (d_base d)) ts)).
Proof.
  revert i w; induction ts as [| t ts IH]; intros i w H.
  - simpl; unfold ret; rewrite log_many_nil; reflexivity.
  - simpl in H; apply andb_prop in H as [Ht Hts].
    simpl; unfold bind; rewrite AccDiffTarget_hydrate_spec, Ht, IH by exact Hts.
    unfold ret; rewrite log_many_app; reflexivity.
Qed.

Lemma AccDiffData_new_inv (ttl : string) (wp : AccDiffWeapon) (b : AccDiffBase)
  (ts : list AccDiffTarget) (w w' : world) (d : AccDiffData) :
  AccDiffData_new ttl wp b ts w = (w', Ok d) ->
  d = mkData ttl wp (hyd_base wp b) (map (hyd_target wp (hyd_base wp b)) ts) /\
  w' = log_many w (hydration_trace (length ts)) /\
  no_raw (w_plugins wp) = true /\ no_raw (b_plugins b) = true /\
  forallb (fun t => no_raw (t_plugins t)) ts = true.
Proof.
  unfold AccDiffData_new; intros H.
  apply bind_ok_inv in H as [u [w1 [Hwh Hk1]]].
  rewrite AccDiffWeapon_hydrate_spec in Hwh; cbn in Hwh.
  case_eq (no_raw (w_plugins wp)); intros Ew; rewrite Ew in Hwh;
    inversion Hwh; subst; clear Hwh.
  apply bind_ok_inv in Hk1 as [b1 [w2 [Hbh Hk2]]].
  rewrite AccDiffBase_hydrate_spec in Hbh; cbn in Hbh.
  case_eq (no_raw (b_plugins b)); intros Eb; rewrite Eb in Hbh;
    inversion Hbh; subst; clear Hbh.
  apply bind_ok_inv in Hk2 as [ts1 [w3 [Hth Hk3]]].
  unfold ret in Hk3; inversion Hk3; subst; clear Hk3.
  apply targets_hydrate_inv in Hth as [-> [-> Hall]].
  simpl; rewrite !log_many_app; auto 6.
Qed.

Lemma AccDiffData_new_ok (ttl : string) (wp : AccDiffWeapon) (b : AccDiffBase)
  (ts : list AccDiffTarget) (w : world) :
  no_raw (w_plugins wp) = true -> no_raw (b_plugins b) = true ->
  forallb (fun t => no_raw (t_plugins t)) ts = true ->
  AccDiffData_new ttl wp b ts w =
    (log_many w (hydration_trace (length ts)),
     Ok (mkData ttl wp (hyd_base wp b) (map (hyd_target wp (hyd_base wp b)) ts))).
Proof.
  intros Hw Hb Hts.
  unfold AccDiffData_new, bind.
  rewrite AccDiffWeapon_hydrate_spec; cbn [d_weapon d_base d_targets]; rewrite Hw.
  rewrite AccDiffBase_hydrate_spec; cbn [d_weapon d_base d_targets]; rewrite Hb.
  rewrite targets_hydrate_ok by exact Hts.
  unfold ret; simpl; rewrite !log_many_app; reflexivity.
Qed.

(** C9: the constructor of [AccDiffData] hydrates the weapon, then the
    base, then each target in list order; the log of the construction is
    exactly [hydration_trace]: one write of the base's [#weapon], and for
    each target one write of its [#weapon] and one of its [#base], nothing
    else. When it returns, the base's back-reference is the aggregate's
    weapon and each target's are the aggregate's weapon and base. *)
Theorem AccDiffData_new_hydrates (ttl : string) (wp : AccDiffWeapon) (b : AccDiffBase)
  (ts : list AccDiffTarget) (w w' : world) (d : AccDiffData)
  (H : AccDiffData_new ttl wp b ts w = (w', Ok d)) :
  w_log w' = w_log w ++
    [EvHydrate EWeapon; EvHydrate EBase; EvSetBaseWeapon] ++ targets_trace 0 (length ts) /\
  w_tokens w' = w_tokens w /\ w_actors w' = w_actors w /\ w_notes w' = w_notes w /\
  b_weapon (d_base d) = Some (d_weapon d) /\
  Forall (fun t => t_weapon t = Some (d_weapon d) /\ t_base t = Some (d_base d))
         (d_targets d) /\
  length (d_targets d) = length ts.
Proof.
  apply AccDiffData_new_inv in H as [-> [-> _]].
  unfold log_many, hydration_trace; simpl.
  repeat split; try reflexivity.
  - apply Forall_forall; intros t Ht.
    apply in_map_iff in Ht as [t0 [<- _]]; split; reflexivity.
  - apply length_map.
Qed.

Lemma AccDiffData_new_hydrates_witness :
  AccDiffData_new "Shot" weapon_ex (mkBase 1 0 CoverNone [] None)
    [mkTarget tokA 0 0 CoverNone true [] None None] world_ex
  = (log_many world_ex (hydration_trace 1),
     Ok (mkData "Shot" weapon_ex base_ex [targetA_ex])) /\
  w_log (log_many world_ex (hydration_trace 1)) =
    [EvHydrate EWeapon; EvHydrate EBase; EvSetBaseWeapon;
     EvHydrate (ETarget 0); EvSetTargetWeapon 0; EvSetTargetBase 0].
Proof.
  assert (H : AccDiffData_new "Shot" weapon_ex (mkBase 1 0 CoverNone [] None)
                [mkTarget tokA 0 0 CoverNone true [] None None] world_ex
              = (log_many world_ex (hydration_trace 1),
                 Ok (mkData "Shot" weapon_ex base_ex [targetA_ex])))
    by (vm_compute; reflexivity).
  split; [exact H |].
  destruct (AccDiffData_new_hydrates _ _ _ _ _ _ _ H) as [HL _].
  rewrite HL; reflexivity.
Defined.

(** ** Decoding *)

Lemma AccDiffTarget_codec_inv (sch : schema) (x : jsval) (w w' : world)
  (r : valid AccDiffTarget) :
  AccDiffTarget_codec sch x w = (w', Ok r) ->
  w' = w /\ (forall t, r = VOk t -> target_decoded sch (w_tokens w) x t).
Proof.
  unfold AccDiffTarget_codec, target_decoded.
  destruct (AccDiffTarget_schemaCodec sch x) as [o | es] eqn:E; intros H.
  - unfold AccDiffTarget_new, bind, get_world in H; simpl in H.
    destruct (find_token (to_target_id o) (w_tokens w)) as [tok |] eqn:F.
    + unfold ret in H; inversion H; subst.
      split; [reflexivity |]; intros t Ht; inversion Ht; subst.
      exists o; simpl; auto.
    + unfold notify_error, throw in H; simpl in H; inversion H.
  - unfold ret in H; inversion H; subst.
    split; [reflexivity | intros t Ht; discriminate].
Qed.

Lemma t_array_targets_inv (sch : schema) (xs : list jsval) (w w' : world)
  (r : valid (list AccDiffTarget)) :
  t_array_targets sch xs w = (w', Ok r) ->
  w' = w /\ (forall ts, r = VOk ts -> Forall2 (target_decoded sch (w_tokens w)) xs ts).
Proof.
  revert w w' r; induction xs as [| x xs IH]; intros w w' r H.
  - simpl in H; unfold ret in H; inversion H; subst.
    split; [reflexivity | intros ts Hts; inversion Hts; constructor].
  - simpl in H.
    apply bind_ok_inv in H as [r1 [w1 [H1 H2]]].
    apply bind_ok_inv in H2 as [rs [w2 [H3 H4]]].
    apply AccDiffTarget_codec_inv in H1 as [-> Hr1].
    apply IH in H3 as [-> Hrs].
    unfold ret in H4; inversion H4; subst; clear H4.
    split; [reflexivity |].
    intros ts Hts.
    destruct r1 as [t1 | es1]; destruct rs as [ts1 | es2]; inversion Hts; subst.
    constructor; [apply Hr1; reflexivity | apply Hrs; reflexivity].
Qed.

Lemma t_string_inv (p : string) (u : jsval) (s : string) :
  t_string p u = VOk s -> u = JStr s.
Proof. destruct u; simpl; intros H; inversion H; reflexivity. Qed.

Lemma fromObject_inv (r : registry) (u : jsval) (w w1 : world) (d : AccDiffData) :
  fromObject r u w = (w1, Ok d) ->
  exists fs ttl wp b ts,
    u = JObj fs /\ get "title" fs = JStr ttl /\
    AccDiffWeapon_codec (weaponSchema r) (get "weapon" fs) = VOk wp /\
    AccDiffBase_codec (baseSchema r) (get "base" fs) = VOk b /\
    targets_codec (targetSchema r) (get "targets" fs) w = (w, Ok (VOk ts)) /\
    AccDiffData_new ttl wp b ts w = (w1, Ok d).
Proof.
  unfold fromObject, decode; intros H.
  apply bind_ok_inv in H as [v [w2 [H1 H2]]].
  destruct v as [d' | es]; [| unfold throw in H2; inversion H2].
  unfold ret in H2; inversion H2; subst; clear H2.
  destruct u as [| | | | | | fs]; unfold AccDiffData_codec, ret in H1;
    try (inversion H1; fail).
  apply bind_ok_inv in H1 as [rts [w3 [H3 H4]]].
  assert (Hw3 : w3 = w /\ forall ts, rts = VOk ts -> True).
  { unfold targets_codec in H3.
    destruct (get "targets" fs); try (unfold ret in H3; inversion H3; auto; fail).
    apply t_array_targets_inv in H3 as [-> _]; auto. }
  destruct Hw3 as [-> _].
  destruct (t_string "title" (get "title" fs)) as [ttl | e1] eqn:Et;
  destruct (AccDiffWeapon_codec (weaponSchema r) (get "weapon" fs)) as [wp | e2] eqn:Ew;
  destruct (AccDiffBase_codec (baseSchema r) (get "base" fs)) as [b | e3] eqn:Eb;
  destruct rts as [ts | e4];
  try (unfold ret in H4; inversion H4; fail).
  apply bind_ok_inv in H4 as [d2 [w4 [H5 H6]]].
  unfold ret in H6; inversion H6; subst; clear H6.
  apply t_string_inv in Et.
  exists fs, ttl, wp, b, ts; auto 7.
Qed.

(** ** [fromParams] *)

Lemma string_length_append (s t : string) :
  String.length (String.append s t) = String.length s + String.length t.
Proof. induction s as [| c s IH]; simpl; [reflexivity | rewrite IH; reflexivity]. Qed.

(** C10: the title of the [AccDiffData] built by [fromParams] is
    ["<title> - Accuracy and Difficulty"] for a non-empty title and
    ["Accuracy and Difficulty"] for an omitted or empty one; it is never
    the supplied title itself. *)
Theorem fromParams_title (r : registry) (item : option jsval)
  (tags : option (list TagInstance)) (ttl : option string)
  (targets : option (list token)) (starting : option (Z * Z))
  (w w' : world) (d : AccDiffData)
  (H : fromParams r item tags ttl targets starting w = (w', Ok d)) :
  title d = match ttl with
            | Some t => if String.eqb t "" then "Accuracy and Difficulty"
                        else String.append t " - Accuracy and Difficulty"
            | None => "Accuracy and Difficulty"
            end /\
  (forall t, ttl = Some t -> title d <> t).
Proof.
  unfold fromParams in H.
  destruct (weapon_flags _) as [[a i] s].
  apply fromObject_inv in H as [fs [ttl' [wp [b [ts [Hu [Ht [_ [_ [_ Hn]]]]]]]]]].
  inversion Hu; subst fs; clear Hu.
  cbn in Ht; inversion Ht; subst ttl'; clear Ht.
  apply AccDiffData_new_inv in Hn as [-> _]; simpl.
  split; [reflexivity |].
  intros t -> Heq; unfold title_of in Heq.
  destruct (String.eqb t "") eqn:E.
  - apply String.eqb_eq in E; subst t; discriminate.
  - apply (f_equal String.length) in Heq.
    rewrite string_length_append in Heq; simpl in Heq; lia.
Qed.

Lemma fromParams_title_witness :
  fromParams empty_registry None None (Some "Shot") None None world_ex
  = (log_many world_ex (hydration_trace 0),
     Ok (mkData "Shot - Accuracy and Difficulty" weapon_ex
                (hyd_base weapon_ex (mkBase 0 0 CoverNone [] None)) [])) /\
  title (mkData "Shot - Accuracy and Difficulty" weapon_ex
                (hyd_base weapon_ex (mkBase 0 0 CoverNone [] None)) [])
  = "Shot - Accuracy and Difficulty".
Proof.
  assert (H : fromParams empty_registry None None (Some "Shot") None None world_ex
              = (log_many world_ex (hydration_trace 0),
                 Ok (mkData "Shot - Accuracy and Difficulty" weapon_ex
                            (hyd_base weapon_ex (mkBase 0 0 CoverNone [] None)) [])))
    by (vm_compute; reflexivity).
  split; [exact H |].
  destruct (fromParams_title _ _ _ _ _ _ _ _ _ H) as [HT _].
  exact HT.
Defined.

Lemma weapon_flags_fold (tags : list TagInstance) (a i s : bool) :
  fold_left tag_step tags (a, i, s) =
    (a || existsb (fun tg => String.eqb (LID tg) "tg_accurate") tags,
     i || existsb (fun tg => String.eqb (LID tg) "tg_inaccurate") tags,
     s || existsb (fun tg => String.eqb (LID tg) "tg_seeking") tags).
Proof.
  revert a i s; induction tags as [| tg tags IH]; intros a i s; simpl.
  - rewrite !orb_false_r; reflexivity.
  - unfold tag_step at 1.
    destruct (String.eqb (LID tg) "tg_accurate") eqn:E1.
    + apply String.eqb_eq in E1; rewrite E1, IH; simpl.
      rewrite !orb_true_r; reflexivity.
    + destruct (String.eqb (LID tg) "tg_inaccurate") eqn:E2.
      * apply String.eqb_eq in E2; rewrite E2, IH; simpl.
        rewrite !orb_true_r; reflexivity.
      * destruct (String.eqb (LID tg) "tg_seeking") eqn:E3;
          rewrite IH; simpl; rewrite ?orb_true_r; reflexivity.
Qed.

(** C6: the weapon flags of [fromParams] come from the tags'
    logical ids: [accurate] holds exactly when some tag has LID
    "tg_accurate", [inaccurate] when some has "tg_inaccurate", [seeking]
    when some has "tg_seeking"; any other LID changes nothing and repeated
    tags leave the flag true. *)
Theorem fromParams_weapon_flags (r : registry) (item : option jsval)
  (tags : option (list TagInstance)) (ttl : option string)
  (targets : option (list token)) (starting : option (Z * Z))
  (w w' : world) (d : AccDiffData)
  (H : fromParams r item tags ttl targets starting w = (w', Ok d)) :
  let tl := match tags with Some l => l | None => [] end in
  accurate (d_weapon d) = existsb (fun tg => String.eqb (LID tg) "tg_accurate") tl /\
  inaccurate (d_weapon d) = existsb (fun tg => String.eqb (LID tg) "tg_inaccurate") tl /\
  seeking (d_weapon d) = existsb (fun tg => String.eqb (LID tg) "tg_seeking") tl.
Proof.
  intros tl; unfold fromParams in H; fold tl in H.
  unfold weapon_flags in H; rewrite weapon_flags_fold in H; simpl in H.
  apply fromObject_inv in H as [fs [ttl' [wp [b [ts [Hu [_ [Hw [_ [_ Hn]]]]]]]]]].
  inversion Hu; subst fs; clear Hu.
  apply AccDiffData_new_inv in Hn as [-> _]; simpl.
  cbn in Hw.
  match type of Hw with
  | match ?v with VOk _ => _ | VErr _ => _ end = _ => destruct v
  end; inversion Hw; subst; simpl; auto.
Qed.

Lemma fromParams_weapon_flags_witness :
  fromParams empty_registry None (Some [mkTag "tg_accurate"; mkTag "tg_seeking"])
             None None None world_ex
  = (log_many world_ex (hydration_trace 0),
     Ok (mkData "Accuracy and Difficulty" (mkWeapon true false true [])
                (hyd_base (mkWeapon true false true []) (mkBase 0 0 CoverNone [] None)) [])) /\
  accurate (mkWeapon true false true []) = true /\
  inaccurate (mkWeapon true false true []) = false /\
  seeking (mkWeapon true false true []) = true.
Proof.
  assert (H : fromParams empty_registry None (Some [mkTag "tg_accurate"; mkTag "tg_seeking"])
                None None None world_ex
              = (log_many world_ex (hydration_trace 0),
                 Ok (mkData "Accuracy and Difficulty" (mkWeapon true false true [])
                            (hyd_base (mkWeapon true false true [])
                                      (mkBase 0 0 CoverNone [] None)) [])))
    by (vm_compute; reflexivity).
  split; [exact H |].
  destruct (fromParams_weapon_flags _ _ _ _ _ _ _ _ _ H) as [H1 [H2 H3]].
  simpl in H1, H2, H3; exact (conj H1 (conj H2 H3)).
Defined.

(** ** Unresolved targets *)

Lemma bind_ok_eq {A B : Type} (m : M A) (k : A -> M B) (w w1 : world) (a : A) :
  m w = (w1, Ok a) -> bind m k w = k a w1.
Proof. unfold bind; intros ->; reflexivity. Qed.

Lemma bind_throw_eq {A B : Type} (m : M A) (k : A -> M B) (w w1 : world) (e : exn) :
  m w = (w1, Throw e) -> bind m k w = (w1, Throw e).
Proof. unfold bind; intros ->; reflexivity. Qed.

Lemma AccDiffTarget_codec_cases (sch : schema) (x : jsval) (w : world) :
  (exists r, AccDiffTarget_codec sch x w = (w, Ok r)) \/
  (exists o, AccDiffTarget_schemaCodec sch x = VOk o /\
             find_token (to_target_id o) (w_tokens w) = None /\
             AccDiffTarget_codec sch x w =
               (notified w token_not_found_msg, Throw (JsError "Token not found"))).
Proof.
  unfold AccDiffTarget_codec.
  destruct (AccDiffTarget_schemaCodec sch x) as [o | es] eqn:E.
  - destruct (find_token (to_target_id o) (w_tokens w)) as [tok |] eqn:F.
    + left; unfold AccDiffTarget_new, bind, get_world; simpl; rewrite F.
      eexists; reflexivity.
    + right; exists o; split; [reflexivity | split; [exact F |]].
      unfold AccDiffTarget_new, bind, get_world; simpl; rewrite F; reflexivity.
  - left; eexists; reflexivity.
Qed.

Lemma t_array_targets_unresolved (sch : schema) (xs : list jsval) (x : jsval)
  (o : target_obj) (w : world) :
  In x xs -> AccDiffTarget_schemaCodec sch x = VOk o ->
  find_token (to_target_id o) (w_tokens w) = None ->
  t_array_targets sch xs w =
    (notified w token_not_found_msg, Throw (JsError "Token not found")).
Proof.
  intros Hin Hx Hnf; revert Hin; induction xs as [| x0 xs IH]; intros Hin;
    [destruct Hin |].
  simpl.
  destruct (AccDiffTarget_codec_cases sch x0 w) as [[r Hr] | [o0 [_ [_ Hr]]]].
  - rewrite (bind_ok_eq _ _ _ _ _ Hr).
    destruct Hin as [-> | Hin].
    + exfalso.
      destruct (AccDiffTarget_codec_cases sch x w) as [_ | [o1 [Ho1 [_ Hr1]]]].
      * unfold AccDiffTarget_codec, AccDiffTarget_new, bind, get_world in Hr.
        rewrite Hx in Hr; simpl in Hr; rewrite Hnf in Hr; inversion Hr.
      * rewrite Hr in Hr1; inversion Hr1.
    + apply bind_throw_eq; exact (IH Hin).
  - apply bind_throw_eq; exact Hr.
Qed.






(** ** Validation of plugin maps *)

Lemma lookup_assoc_set_neq {A : Type} (k k' : string) (v : A) (m : list (string * A)) :
  k <> k' -> lookup k (assoc_set k' v m) = lookup k m.
Proof.
  intros Hne; induction m as [| [k1 v1] m IH]; simpl.
  - destruct (String.eqb k k') eqn:E; [apply String.eqb_eq in E; congruence | reflexivity].
  - destruct (String.eqb k' k1) eqn:E1; simpl.
    + apply String.eqb_eq in E1; subst k1.
      destruct (String.eqb k k') eqn:E; [apply String.eqb_eq in E; congruence | reflexivity].
    + destruct (String.eqb k k1); [reflexivity | exact IH].
Qed.

Lemma lookup_app {A : Type} (k : string) (l1 l2 : list (string * A)) :
  lookup k (l1 ++ l2) = match lookup k l1 with Some v => Some v | None => lookup k l2 end.
Proof.
  induction l1 as [| [k1 v1] l1 IH]; simpl; [reflexivity |].
  destruct (String.eqb k k1); [reflexivity | exact IH].
Qed.

Lemma lookup_raw_plugins (k : string) (fs : list (string * jsval)) :
  lookup k (raw_plugins fs) = option_map PRaw (lookup k fs).
Proof.
  induction fs as [| [k1 v1] fs IH]; simpl; [reflexivity |].
  destruct (String.eqb k k1); [reflexivity | exact IH].
Qed.

Lemma lookup_In {A : Type} (k : string) (v : A) (m : list (string * A)) :
  lookup k m = Some v -> In (k, v) m.
Proof.
  induction m as [| [k1 v1] m IH]; simpl; [discriminate |].
  destruct (String.eqb k k1) eqn:E; intros H.
  - inversion H; subst; apply String.eqb_eq in E; subst; left; reflexivity.
  - right; exact (IH H).
Qed.

Lemma plugin_fold_errs (fs : list (string * jsval)) (sch : schema)
  (errs : list string) (a : plugins) :
  fst (fold_left (plugin_step fs) sch (errs, a)) = errs ++ plugin_fails fs sch.
Proof.
  revert errs a; induction sch as [| [k c] sch IH]; intros errs a.
  - simpl; rewrite app_nil_r; reflexivity.
  - unfold plugin_fails in *; simpl.
    destruct (c_validate c (get k fs)); rewrite IH; [reflexivity |].
    rewrite <- app_assoc; reflexivity.
Qed.

Lemma plugin_fold_notin (fs : list (string * jsval)) (sch : schema) (k : string)
  (errs : list string) (a : plugins) :
  ~ In k (map fst sch) ->
  lookup k (snd (fold_left (plugin_step fs) sch (errs, a))) = lookup k a.
Proof.
  revert errs a; induction sch as [| [k1 c] sch IH]; intros errs a Hn; simpl in *;
    [reflexivity |].
  destruct (c_validate c (get k1 fs)); rewrite IH by tauto; [| reflexivity].
  apply lookup_assoc_set_neq; intros ->; tauto.
Qed.

Lemma t_type_plugins_verrs (sch : schema) (fs : list (string * jsval)) :
  verrs (t_type_plugins sch (JObj fs)) = plugin_fails fs sch.
Proof.
  unfold t_type_plugins.
  pose proof (plugin_fold_errs fs sch [] (raw_plugins fs)) as E.
  destruct (fold_left (plugin_step fs) sch ([], raw_plugins fs)) as [errs a].
  simpl in E; subst errs.
  destruct (plugin_fails fs sch); reflexivity.
Qed.

Lemma t_type_plugins_ok (sch : schema) (fs : list (string * jsval)) (m : plugins) :
  t_type_plugins sch (JObj fs) = VOk m ->
  m = snd (fold_left (plugin_step fs) sch ([], raw_plugins fs)).
Proof.
  unfold t_type_plugins.
  destruct (fold_left (plugin_step fs) sch ([], raw_plugins fs)) as [errs a].
  destruct errs; intros H; inversion H; reflexivity.
Qed.

Lemma plugin_fails_get (fs fs' : list (string * jsval)) (sch : schema) :
  (forall k, In k (map fst sch) -> get k fs = get k fs') ->
  plugin_fails fs sch = plugin_fails fs' sch.
Proof.
  induction sch as [| [k c] sch IH]; intros H; [reflexivity |].
  unfold plugin_fails in *; simpl in *.
  rewrite (H k (or_introl eq_refl)).
  destruct (c_validate c (get k fs')); simpl; [| f_equal];
    apply IH; intros k' Hk'; apply H; right; exact Hk'.
Qed.

Lemma no_raw_In (m : plugins) (k : string) (v : jsval) :
  no_raw m = true -> In (k, PRaw v) m -> False.
Proof.
  unfold no_raw; rewrite forallb_forall; intros H Hin.
  specialize (H _ Hin); discriminate.
Qed.

Lemma targets_hydrate_throw (d : AccDiffData) (i : nat) (ts : list AccDiffTarget)
  (w w' : world) (e : exn) :
  targets_hydrate d i ts w = (w', Throw e) -> e = TypeError.
Proof.
  revert i w; induction ts as [| t ts IH]; intros i w H; simpl in H.
  - unfold ret in H; inversion H.
  - unfold bind at 1 in H; rewrite AccDiffTarget_hydrate_spec in H.
    destruct (no_raw (t_plugins t)); [| inversion H; reflexivity].
    unfold bind in H.
    destruct (targets_hydrate d (S i) ts (log_many w (target_trace i)))
      as [w2 [ts2 | e2]] eqn:E.
    + unfold ret in H; inversion H.
    + inversion H; subst; exact (IH _ _ E).
Qed.

Lemma AccDiffData_new_throw (ttl : string) (wp : AccDiffWeapon) (b : AccDiffBase)
  (ts : list AccDiffTarget) (w w' : world) (e : exn) :
  AccDiffData_new ttl wp b ts w = (w', Throw e) -> e = TypeError.
Proof.
  unfold AccDiffData_new, bind at 1; intros H.
  rewrite AccDiffWeapon_hydrate_spec in H; cbn [d_weapon d_base d_targets] in H.
  destruct (no_raw (w_plugins wp)); [| inversion H; reflexivity].
  unfold bind at 1 in H; rewrite AccDiffBase_hydrate_spec in H.
  cbn [d_weapon d_base d_targets] in H.
  destruct (no_raw (b_plugins b)); [| inversion H; reflexivity].
  unfold bind in H.
  lazymatch type of H with
  | context [targets_hydrate ?d1 ?i ?ts1 ?w1] =>
      destruct (targets_hydrate d1 i ts1 w1) as [w2 [ts2 | e2]] eqn:E
  end.
  - unfold ret in H; inversion H.
  - inversion H; subst; exact (targets_hydrate_throw _ _ _ _ _ _ E).
Qed.

(** C5, counterexample: with no plugin registered, an input whose weapon
    [plugins] map holds an unknown key ["zzz"] passes validation ([t.type]
    keeps the key as a plain value); decoding then fails, but with the
    [TypeError] of calling [hydrate] on that plain value, not with a
    [ValidationError]. *)
Lemma unknown_plugin_key_counterexample :
  t_type_plugins [] (JObj [("zzz", JBool true)]) = VOk [("zzz", PRaw (JBool true))] /\
  fromObject empty_registry data_json_unknown world_ex =
    (log_many world_ex [EvHydrate EWeapon], Throw TypeError).
Proof. split; vm_compute; reflexivity. Qed.


(** ** Association lists *)

Lemma lookup_None_notin {A : Type} (k : string) (l : list (string * A)) :
  ~ In k (map fst l) -> lookup k l = None.
Proof.
  induction l as [| [k1 v1] l IH]; simpl; intros Hn; [reflexivity |].
  destruct (String.eqb k k1) eqn:E; [apply String.eqb_eq in E; subst; tauto |].
  apply IH; tauto.
Qed.

Lemma in_keys_lookup {A : Type} (k : string) (l : list (string * A)) :
  In k (map fst l) -> exists v, lookup k l = Some v.
Proof.
  induction l as [| [k1 v1] l IH]; simpl; intros Hin; [destruct Hin |].
  destruct (String.eqb k k1) eqn:E; [eauto |].
  destruct Hin as [-> | Hin]; [rewrite String.eqb_refl in E; discriminate | exact (IH Hin)].
Qed.

Lemma In_lookup_nodup {A : Type} (k : string) (v : A) (l : list (string * A)) :
  NoDup (map fst l) -> In (k, v) l -> lookup k l = Some v.
Proof.
  induction l as [| [k1 v1] l IH]; simpl; intros Hnd Hin; [destruct Hin |].
  inversion Hnd as [| ? ? Hn1 Hnd']; subst.
  destruct Hin as [E | Hin].
  - inversion E; subst; rewrite String.eqb_refl; reflexivity.
  - destruct (String.eqb k k1) eqn:E.
    + apply String.eqb_eq in E; subst; exfalso; apply Hn1.
      apply in_map_iff; exists (k1, v); auto.
    + exact (IH Hnd' Hin).
Qed.

Lemma lookup_map_pair {A B : Type} (h : string * A -> B) (k : string)
  (l : list (string * A)) :
  lookup k (map (fun ke => (fst ke, h ke)) l) = option_map (fun v => h (k, v)) (lookup k l).
Proof.
  induction l as [| [k1 v1] l IH]; simpl; [reflexivity |].
  destruct (String.eqb k k1) eqn:E; [apply String.eqb_eq in E; subst; reflexivity | exact IH].
Qed.

Lemma keys_map_pair {A B : Type} (h : string * A -> B) (l : list (string * A)) :
  map fst (map (fun ke => (fst ke, h ke)) l) = map fst l.
Proof. rewrite map_map; apply map_ext; reflexivity. Qed.

Lemma list_eq_by_lookup {A : Type} (l1 l2 : list (string * A)) :
  map fst l1 = map fst l2 -> NoDup (map fst l1) ->
  (forall k, lookup k l1 = lookup k l2) -> l1 = l2.
Proof.
  revert l2; induction l1 as [| [k1 v1] l1 IH]; intros [| [k2 v2] l2] Hk Hnd Hl;
    simpl in Hk; try discriminate; [reflexivity |].
  inversion Hk as [[Hk12 Hks]]; subst k2.
  inversion Hnd as [| ? ? Hn1 Hnd']; subst.
  pose proof (Hl k1) as H1; simpl in H1; rewrite String.eqb_refl in H1.
  inversion H1; subst v2.
  f_equal; apply IH; [exact Hks | exact Hnd' |].
  intros k; destruct (String.eqb k k1) eqn:E.
  - apply String.eqb_eq in E; subst k.
    rewrite !lookup_None_notin; [reflexivity | rewrite <- Hks |]; exact Hn1.
  - pose proof (Hl k) as Hk'; simpl in Hk'; rewrite E in Hk'; exact Hk'.
Qed.

Lemma assoc_set_keys {A : Type} (k' k : string) (v : A) (l : list (string * A)) :
  In k' (map fst (assoc_set k v l)) <-> k' = k \/ In k' (map fst l).
Proof.
  induction l as [| [k1 v1] l IH]; simpl; [intuition (subst; auto) |].
  destruct (String.eqb k k1) eqn:E; simpl.
  - apply String.eqb_eq in E; subst; intuition (subst; auto).
  - rewrite IH; intuition (subst; auto).
Qed.

Lemma assoc_set_nodup {A : Type} (k : string) (v : A) (l : list (string * A)) :
  NoDup (map fst l) -> NoDup (map fst (assoc_set k v l)).
Proof.
  induction l as [| [k1 v1] l IH]; simpl; intros Hnd.
  - constructor; [intros [] | constructor].
  - inversion Hnd as [| ? ? Hn1 Hnd']; subst.
    destruct (String.eqb k k1) eqn:E; simpl.
    + apply String.eqb_eq in E; subst; constructor; assumption.
    + constructor; [| exact (IH Hnd')].
      rewrite assoc_set_keys; intros [-> | H]; [rewrite String.eqb_refl in E; discriminate |].
      exact (Hn1 H).
Qed.

Lemma assoc_set_In {A : Type} (k' k : string) (e v : A) (l : list (string * A)) :
  In (k', e) (assoc_set k v l) -> (k' = k /\ e = v) \/ In (k', e) l.
Proof.
  induction l as [| [k1 v1] l IH]; simpl.
  - intros [E | []]; inversion E; auto.
  - destruct (String.eqb k k1); simpl; intros [E | H].
    + inversion E; auto.
    + auto.
    + auto.
    + destruct (IH H); auto.
Qed.

Lemma lookup_assoc_set_eq {A : Type} (k : string) (v : A) (l : list (string * A)) :
  lookup k (assoc_set k v l) = Some v.
Proof.
  induction l as [| [k1 v1] l IH]; simpl; [rewrite String.eqb_refl; reflexivity |].
  destruct (String.eqb k k1) eqn:E; simpl; [rewrite String.eqb_refl; reflexivity |].
  rewrite E; exact IH.
Qed.

(** Setting a key the object already has leaves its keys as they are. *)
Lemma assoc_set_keys_eq {A : Type} (k : string) (v : A) (l : list (string * A)) :
  In k (map fst l) -> map fst (assoc_set k v l) = map fst l.
Proof.
  induction l as [| [k1 v1] l IH]; simpl; intros Hin; [destruct Hin |].
  destruct (String.eqb k k1) eqn:E; simpl.
  - apply String.eqb_eq in E; subst; reflexivity.
  - f_equal; apply IH; destruct Hin as [-> | H];
      [rewrite String.eqb_refl in E; discriminate | exact H].
Qed.

Section FoldSet.
Context {A B : Type} (F : string * B -> A).

Lemma fold_set_lookup (sch : list (string * B)) (l : list (string * A)) (k : string) :
  NoDup (map fst sch) ->
  lookup k (fold_left (fun s kc => assoc_set (fst kc) (F kc) s) sch l) =
  match lookup k sch with Some c => Some (F (k, c)) | None => lookup k l end.
Proof.
  revert l; induction sch as [| [k1 c1] sch IH]; intros l Hnd; simpl; [reflexivity |].
  inversion Hnd as [| ? ? Hn1 Hnd']; subst.
  rewrite IH by exact Hnd'.
  destruct (String.eqb k k1) eqn:E.
  - apply String.eqb_eq in E; subst.
    rewrite lookup_None_notin by exact Hn1.
    apply lookup_assoc_set_eq.
  - rewrite lookup_assoc_set_neq; [reflexivity |].
    intros ->; rewrite String.eqb_refl in E; discriminate.
Qed.

Lemma fold_set_nodup (sch : list (string * B)) (l : list (string * A)) :
  NoDup (map fst l) ->
  NoDup (map fst (fold_left (fun s kc => assoc_set (fst kc) (F kc) s) sch l)).
Proof.
  revert l; induction sch as [| kc sch IH]; intros l Hnd; simpl; [exact Hnd |].
  apply IH, assoc_set_nodup, Hnd.
Qed.

Lemma fold_set_keys (sch : list (string * B)) (l : list (string * A)) :
  incl (map fst sch) (map fst l) ->
  map fst (fold_left (fun s kc => assoc_set (fst kc) (F kc) s) sch l) = map fst l.
Proof.
  revert l; induction sch as [| kc sch IH]; intros l Hi; simpl; [reflexivity |].
  assert (Hk : map fst (assoc_set (fst kc) (F kc) l) = map fst l)
    by (apply assoc_set_keys_eq, Hi; left; reflexivity).
  rewrite IH, Hk; [reflexivity |].
  rewrite Hk; intros k Hin; apply Hi; right; exact Hin.
Qed.

End FoldSet.

(** ** Plugin maps: validation of a validated map's encoding *)

(** When every schema key validates, [t.type]'s loop is a sequence of
    writes of the decoded values. *)
Lemma plugin_fold_all (fs : list (string * jsval)) (sch : schema)
  (errs : list string) (a : plugins) :
  (forall kc, In kc sch -> c_validate (snd kc) (get (fst kc) fs) <> None) ->
  fold_left (plugin_step fs) sch (errs, a) =
  (errs, fold_left (fun s kc => assoc_set (fst kc)
            (PData (match c_validate (snd kc) (get (fst kc) fs) with
                    | Some d => d | None => JUndef end)) s) sch a).
Proof.
  revert a; induction sch as [| [k c] sch IH]; intros a Hall; simpl; [reflexivity |].
  destruct (c_validate c (get k fs)) eqn:E.
  - apply IH; intros kc Hkc; apply Hall; right; exact Hkc.
  - exfalso; apply (Hall (k, c)); [left; reflexivity | exact E].
Qed.

Lemma plugin_fails_nil (fs : list (string * jsval)) (sch : schema) :
  plugin_fails fs sch = [] ->
  forall kc, In kc sch -> c_validate (snd kc) (get (fst kc) fs) <> None.
Proof.
  unfold plugin_fails; intros H kc Hin Hn.
  apply map_eq_nil in H.
  assert (Hf : In kc (filter (fun kc => match c_validate (snd kc) (get (fst kc) fs) with
                                       | Some _ => false | None => true end) sch))
    by (apply filter_In; split; [exact Hin | rewrite Hn; reflexivity]).
  rewrite H in Hf; destruct Hf.
Qed.

Lemma nodupb_NoDup (l : list string) : nodupb l = true -> NoDup l.
Proof.
  induction l as [| x l IH]; simpl; intros H; [constructor |].
  apply andb_prop in H as [Hx Hl]; constructor; [| exact (IH Hl)].
  intros Hin; apply negb_true_iff in Hx.
  assert (Hex : existsb (String.eqb x) l = true)
    by (apply existsb_exists; exists x; split; [exact Hin | apply String.eqb_refl]).
  congruence.
Qed.

Lemma wf_js_fields (fs : list (string * jsval)) :
  wf_js (JObj fs) = true ->
  NoDup (map fst fs) /\ forall k v, In (k, v) fs -> wf_js v = true.
Proof.
  simpl; intros H; apply andb_prop in H as [Hn Hf].
  split; [exact (nodupb_NoDup _ Hn) |]; clear Hn.
  induction fs as [| [k1 v1] fs IH]; simpl in *; [tauto |].
  apply andb_prop in Hf as [H1 H2].
  intros k v [E | Hin]; [inversion E; subst; exact H1 | exact (IH H2 k v Hin)].
Qed.

Lemma wf_js_elems (xs : list jsval) :
  wf_js (JArr xs) = true -> forall x, In x xs -> wf_js x = true.
Proof.
  simpl; intros H; induction xs as [| x1 xs IH]; simpl in *; [tauto |].
  apply andb_prop in H as [H1 H2].
  intros x [<- | Hin]; [exact H1 | exact (IH H2 x Hin)].
Qed.

Lemma wf_js_get (k : string) (fs : list (string * jsval)) :
  wf_js (JObj fs) = true -> wf_js (get k fs) = true.
Proof.
  intros H; apply wf_js_fields in H as [_ H].
  unfold get; destruct (lookup k fs) as [v |] eqn:E; [| reflexivity].
  exact (H k v (lookup_In _ _ _ E)).
Qed.

(** A plugin map that [t.type] validated and whose hydration succeeded has
    the shape [plugins_ok]. *)
Lemma plugins_decoded_ok (sch : schema) (u : jsval) (m : plugins) :
  NoDup (map fst sch) -> wf_js u = true -> t_type_plugins sch u = VOk m ->
  no_raw m = true -> plugins_ok sch m.
Proof.
  intros Hnds Hwf H Hr.
  destruct u as [| | | | | | fs]; try (simpl in H; discriminate).
  destruct (wf_js_fields fs Hwf) as [Hndf _].
  assert (Hall : forall kc, In kc sch -> c_validate (snd kc) (get (fst kc) fs) <> None).
  { apply plugin_fails_nil; rewrite <- t_type_plugins_verrs, H; reflexivity. }
  apply t_type_plugins_ok in H.
  rewrite plugin_fold_all in H by exact Hall; cbn [snd] in H.
  assert (Hndm : NoDup (map fst m)).
  { rewrite H; apply fold_set_nodup; unfold raw_plugins; rewrite keys_map_pair; exact Hndf. }
  split; [exact Hndm | split].
  - intros k Hk; apply in_map_iff in Hk as [[k0 c] [Hk0 Hin]]; simpl in Hk0; subst k0.
    assert (Hl : lookup k sch = Some c) by (apply In_lookup_nodup; assumption).
    destruct (lookup k m) as [e |] eqn:E.
    + apply in_map_iff; exists (k, e); split; [reflexivity | apply lookup_In; exact E].
    + rewrite H, fold_set_lookup, Hl in E by exact Hnds; discriminate.
  - intros k e Hin.
    pose proof (In_lookup_nodup _ _ _ Hndm Hin) as E.
    rewrite H, fold_set_lookup in E by exact Hnds.
    destruct (lookup k sch) as [c |] eqn:Hl.
    + cbv beta in E; cbn [fst snd] in E.
      destruct (c_validate c (get k fs)) as [d |] eqn:Ev.
      * inversion E; subst e; exists c, d, (get k fs); auto.
      * exfalso; apply (Hall (k, c)); [apply lookup_In; exact Hl | exact Ev].
    + rewrite lookup_raw_plugins in E.
      destruct (lookup k fs); simpl in E; inversion E; subst e.
      exfalso; exact (no_raw_In _ _ _ Hr Hin).
Qed.

(** The codec law of every plugin codec lifts to [t.type(pluginSchema)]:
    validating the encoding of a decoded plugin map gives the map back. *)
Lemma plugins_roundtrip (sch : schema) (m : plugins) :
  NoDup (map fst sch) -> (forall k c, In (k, c) sch -> codec_law c) ->
  plugins_ok sch m -> t_type_plugins sch (encode_plugins sch m) = VOk m.
Proof.
  intros Hnds Hlaw [Hndm [Hincl Hent]].
  unfold encode_plugins.
  match goal with |- t_type_plugins _ (JObj ?f) = _ => remember f as fs' eqn:Efs end.
  assert (Hkl : map fst (map (fun ke => (fst ke, pentry_val (snd ke))) m) = map fst m)
    by apply keys_map_pair.
  assert (Hkeys : map fst fs' = map fst m).
  { rewrite Efs, fold_set_keys; [exact Hkl | rewrite Hkl; exact Hincl]. }
  assert (Hlk : forall k c, lookup k sch = Some c ->
            exists d, lookup k m = Some (PData d) /\ get k fs' = c_encode c d /\
                      c_validate c (c_encode c d) = Some d).
  { intros k c Hl.
    assert (Hk : In k (map fst m))
      by (apply Hincl, in_map_iff; exists (k, c); split; [reflexivity | apply lookup_In; exact Hl]).
    destruct (in_keys_lookup _ _ Hk) as [e He].
    destruct (Hent k e (lookup_In _ _ _ He)) as [c' [d [u [Hl' [-> Hv]]]]].
    rewrite Hl in Hl'; inversion Hl'; subst c'.
    exists d; split; [exact He | split].
    - unfold get; rewrite Efs, fold_set_lookup, Hl by exact Hnds; cbn [fst snd].
      rewrite He; reflexivity.
    - apply (Hlaw k c (lookup_In _ _ _ Hl) u d Hv). }
  assert (Hall : forall kc, In kc sch -> c_validate (snd kc) (get (fst kc) fs') <> None).
  { intros [k c] Hin; simpl.
    destruct (Hlk k c (In_lookup_nodup _ _ _ Hnds Hin)) as [d [_ [-> ->]]]; discriminate. }
  assert (Hraw : map fst (raw_plugins fs') = map fst m)
    by (unfold raw_plugins; rewrite keys_map_pair; exact Hkeys).
  unfold t_type_plugins; rewrite plugin_fold_all by exact Hall; cbv beta iota.
  f_equal; apply list_eq_by_lookup.
  - rewrite fold_set_keys; [exact Hraw | rewrite Hraw; exact Hincl].
  - apply fold_set_nodup; rewrite Hraw; exact Hndm.
  - intros k; rewrite fold_set_lookup by exact Hnds.
    destruct (lookup k sch) as [c |] eqn:Hl.
    + destruct (Hlk k c Hl) as [d [Hm [Hg Hv]]].
      rewrite Hm; cbv beta; cbn [fst snd]; rewrite Hg, Hv; reflexivity.
    + rewrite lookup_raw_plugins.
      destruct (lookup k m) as [e |] eqn:Hm.
      * exfalso; destruct (Hent k e (lookup_In _ _ _ Hm)) as [c [_ [_ [Hl' _]]]].
        rewrite Hl in Hl'; discriminate.
      * rewrite Efs, fold_set_lookup, Hl by exact Hnds.
        rewrite lookup_map_pair, Hm; reflexivity.
Qed.

(** ** Entities: decoding and encoding *)

Lemma AccDiffWeapon_codec_inv (sch : schema) (u : jsval) (wp : AccDiffWeapon) :
  AccDiffWeapon_codec sch u = VOk wp ->
  exists fs, u = JObj fs /\ t_type_plugins sch (get "plugins" fs) = VOk (w_plugins wp).
Proof.
  intros H; destruct u as [| | | | | | fs]; unfold AccDiffWeapon_codec in H; try discriminate.
  exists fs; split; [reflexivity |].
  destruct (t_boolean "accurate" (get "accurate" fs));
  destruct (t_boolean "inaccurate" (get "inaccurate" fs));
  destruct (t_boolean "seeking" (get "seeking" fs));
  destruct (t_type_plugins sch (get "plugins" fs));
  inversion H; subst; reflexivity.
Qed.

Lemma AccDiffBase_codec_inv (sch : schema) (u : jsval) (b : AccDiffBase) :
  AccDiffBase_codec sch u = VOk b ->
  b_weapon b = None /\
  exists fs, u = JObj fs /\ t_type_plugins sch (get "plugins" fs) = VOk (b_plugins b).
Proof.
  intros H; destruct u as [| | | | | | fs]; unfold AccDiffBase_codec in H; try discriminate.
  destruct (t_number "accuracy" (get "accuracy" fs));
  destruct (t_number "difficulty" (get "difficulty" fs));
  destruct (coverSchema "cover" (get "cover" fs));
  destruct (t_type_plugins sch (get "plugins" fs)) eqn:Ep;
  inversion H; subst; eauto.
Qed.

Lemma AccDiffTarget_schemaCodec_inv (sch : schema) (u : jsval) (o : target_obj) :
  AccDiffTarget_schemaCodec sch u = VOk o ->
  exists fs, u = JObj fs /\ t_type_plugins sch (get "plugins" fs) = VOk (to_plugins o).
Proof.
  intros H; destruct u as [| | | | | | fs]; unfold AccDiffTarget_schemaCodec in H; try discriminate.
  exists fs; split; [reflexivity |].
  destruct (t_string "target_id" (get "target_id" fs));
  destruct (t_number "accuracy" (get "accuracy" fs));
  destruct (t_number "difficulty" (get "difficulty" fs));
  destruct (coverSchema "cover" (get "cover" fs));
  destruct (t_boolean "consumeLockOn" (get "consumeLockOn" fs));
  destruct (t_type_plugins sch (get "plugins" fs));
  inversion H; subst; reflexivity.
Qed.

Lemma AccDiffWeapon_codec_encode (sch : schema) (wp : AccDiffWeapon) :
  t_type_plugins sch (encode_plugins sch (w_plugins wp)) = VOk (w_plugins wp) ->
  AccDiffWeapon_codec sch (encode_weapon sch wp) = VOk wp.
Proof.
  destruct wp as [a i s p]; intros H; cbn [w_plugins] in H.
  unfold AccDiffWeapon_codec, encode_weapon; cbn [accurate inaccurate seeking w_plugins].
  remember (encode_plugins sch p) as P eqn:EP.
  cbn; rewrite H; reflexivity.
Qed.

Lemma AccDiffBase_codec_encode (sch : schema) (b : AccDiffBase) :
  t_type_plugins sch (encode_plugins sch (b_plugins b)) = VOk (b_plugins b) ->
  AccDiffBase_codec sch (encode_base sch b) =
    VOk (mkBase (b_accuracy b) (b_difficulty b) (b_cover b) (b_plugins b) None).
Proof.
  destruct b as [a d c p bw]; intros H; cbn [b_plugins] in H.
  unfold AccDiffBase_codec, encode_base; cbn [b_accuracy b_difficulty b_cover b_plugins].
  remember (encode_plugins sch p) as P eqn:EP.
  destruct c; cbn; rewrite H; reflexivity.
Qed.

Lemma find_token_id (id : string) (toks : list token) (tok : token) :
  find_token id toks = Some tok -> find_token (tk_id tok) toks = Some tok.
Proof.
  intros H; pose proof H as H'.
  apply find_some in H' as [_ E]; apply String.eqb_eq in E.
  rewrite E; exact H.
Qed.

Lemma AccDiffTarget_codec_encode (sch : schema) (t : AccDiffTarget) (w : world) :
  t_type_plugins sch (encode_plugins sch (t_plugins t)) = VOk (t_plugins t) ->
  find_token (tk_id (t_target t)) (w_tokens w) = Some (t_target t) ->
  t_weapon t = None -> t_base t = None ->
  AccDiffTarget_codec sch (encode_target sch t) w = (w, Ok (VOk t)).
Proof.
  destruct t as [tok a d c l p tw tb]; intros H Hf Hw Hb.
  cbn [t_plugins t_target t_weapon t_base] in H, Hf, Hw, Hb; subst tw tb.
  unfold AccDiffTarget_codec.
  assert (Ho : AccDiffTarget_schemaCodec sch (encode_target sch (mkTarget tok a d c l p None None))
               = VOk (mkTargetObj (tk_id tok) a d c l p)).
  { unfold AccDiffTarget_schemaCodec, encode_target.
    cbn [t_target t_accuracy t_difficulty t_cover t_consumeLockOn t_plugins].
    remember (encode_plugins sch p) as P eqn:EP.
    destruct c; cbn; rewrite H; reflexivity. }
  rewrite Ho; unfold AccDiffTarget_new, bind, get_world, ret; cbn [to_target_id].
  rewrite Hf; reflexivity.
Qed.

Lemma t_array_targets_encode (sch : schema) (ts : list AccDiffTarget) (w : world) :
  Forall (fun t => AccDiffTarget_codec sch (encode_target sch t) w = (w, Ok (VOk t))) ts ->
  t_array_targets sch (map (encode_target sch) ts) w = (w, Ok (VOk ts)).
Proof.
  induction 1 as [| t ts Ht _ IH]; [reflexivity |].
  cbn [map t_array_targets].
  rewrite (bind_ok_eq _ _ _ _ _ Ht), (bind_ok_eq _ _ _ _ _ IH); reflexivity.
Qed.

Lemma AccDiffData_codec_ok (wsch bsch tsch : schema) (fs : list (string * jsval))
  (ttl : string) (wp : AccDiffWeapon) (b : AccDiffBase) (ts : list AccDiffTarget)
  (w : world) :
  t_string "title" (get "title" fs) = VOk ttl ->
  AccDiffWeapon_codec wsch (get "weapon" fs) = VOk wp ->
  AccDiffBase_codec bsch (get "base" fs) = VOk b ->
  targets_codec tsch (get "targets" fs) w = (w, Ok (VOk ts)) ->
  AccDiffData_codec wsch bsch tsch (JObj fs) w =
    bind (AccDiffData_new ttl wp b ts) (fun d => ret (VOk d)) w.
Proof.
  intros H1 H2 H3 H4; unfold AccDiffData_codec; cbv zeta.
  rewrite (bind_ok_eq _ _ _ _ _ H4), H1, H2, H3; reflexivity.
Qed.

Lemma Forall2_in_r {A B : Type} (R : A -> B -> Prop) (xs : list A) (ys : list B) (y : B) :
  Forall2 R xs ys -> In y ys -> exists x, In x xs /\ R x y.
Proof.
  induction 1 as [| x0 y0 xs' ys' H0 _ IH]; intros Hin; [destruct Hin |].
  destruct Hin as [-> | Hin]; [exists x0; split; [left; reflexivity | exact H0] |].
  destruct (IH Hin) as [x [Hx Hr]]; exists x; split; [right; exact Hx | exact Hr].
Qed.

(** ** Registry *)

Lemma schema_lawful_set (k : string) (c : codec) (sch : schema) :
  codec_law c -> schema_lawful sch -> schema_lawful (assoc_set k c sch).
Proof.
  intros Hc [Hnd Hl]; split; [exact (assoc_set_nodup _ _ _ Hnd) |].
  intros k' c' Hin; destruct (assoc_set_In _ _ _ _ _ Hin) as [[_ ->] | H];
    [exact Hc | exact (Hl _ _ H)].
Qed.

Lemma registry_of_lawful (ps : list AccDiffPlugin) :
  Forall (fun p => codec_law (p_codec p)) ps ->
  schema_lawful (weaponSchema (registry_of ps)) /\
  schema_lawful (baseSchema (registry_of ps)) /\
  schema_lawful (targetSchema (registry_of ps)).
Proof.
  unfold registry_of.
  assert (H0 : schema_lawful (weaponSchema empty_registry) /\
               schema_lawful (baseSchema empty_registry) /\
               schema_lawful (targetSchema empty_registry)).
  { repeat split; try constructor; intros k c []. }
  revert H0; generalize empty_registry.
  induction ps as [| p ps IH]; intros r H0 Hps; simpl; [exact H0 |].
  inversion Hps as [| ? ? Hp Hps']; subst.
  apply IH; [| exact Hps'].
  destruct H0 as [Hw [Hb Ht]]; unfold registerPlugin; cbn [weaponSchema baseSchema targetSchema].
  split; [| split];
    [destruct (perRoll p) | destruct (perUnknownTarget p) | destruct (perTarget p)];
    try (apply schema_lawful_set; assumption); assumption.
Qed.

(** C1: under any registry built by [registerPlugin] from plugins whose
    codecs obey the io-ts codec law, an [AccDiffData] obtained by
    [fromObject] (from a well-formed plain object) is encoded by [toObject]
    to a plain object that [fromObject] decodes back to the same instance:
    title, weapon flags, base accuracy, difficulty and cover, every
    target's token, accuracy, difficulty, cover and [consumeLockOn], and
    every entry of every [plugins] map, back-references included. *)
Theorem fromObject_toObject (ps : list AccDiffPlugin) (u : jsval) (w w1 : world)
  (d : AccDiffData)
  (Hlaw : Forall (fun p => codec_law (p_codec p)) ps)
  (Hwf : wf_js u = true)
  (H : fromObject (registry_of ps) u w = (w1, Ok d)) :
  fromObject (registry_of ps) (toObject (registry_of ps) d) w1 =
    (log_many w1 (hydration_trace (length (d_targets d))), Ok d).
Proof.
  destruct (registry_of_lawful ps Hlaw) as [[Hndw Hlw] [[Hndb Hlb] [Hndt Hlt]]].
  apply fromObject_inv in H as (fs & ttl & wp & b & ts & -> & Htl & Hw & Hb & Htg & Hnew).
  pose proof (AccDiffData_new_inv _ _ _ _ _ _ _ Hnew) as (-> & Hw1 & Hrw & Hrb & Hrts).
  set (wsch := weaponSchema (registry_of ps)) in *.
  set (bsch := baseSchema (registry_of ps)) in *.
  set (tsch := targetSchema (registry_of ps)) in *.
  (* the weapon *)
  destruct (AccDiffWeapon_codec_inv _ _ _ Hw) as (fw & Efw & Hpw).
  assert (Hokw : plugins_ok wsch (w_plugins wp)).
  { apply (plugins_decoded_ok _ (get "plugins" fw)); [exact Hndw | | exact Hpw | exact Hrw].
    apply wf_js_get; rewrite <- Efw; apply wf_js_get; exact Hwf. }
  assert (Hweapon : AccDiffWeapon_codec wsch (encode_weapon wsch wp) = VOk wp)
    by exact (AccDiffWeapon_codec_encode _ _ (plugins_roundtrip _ _ Hndw Hlw Hokw)).
  (* the base *)
  destruct (AccDiffBase_codec_inv _ _ _ Hb) as (Hbw & fb & Efb & Hpb).
  assert (Hokb : plugins_ok bsch (b_plugins b)).
  { apply (plugins_decoded_ok _ (get "plugins" fb)); [exact Hndb | | exact Hpb | exact Hrb].
    apply wf_js_get; rewrite <- Efb; apply wf_js_get; exact Hwf. }
  assert (Hbase : AccDiffBase_codec bsch (encode_base bsch (hyd_base wp b)) = VOk b).
  { rewrite AccDiffBase_codec_encode by exact (plugins_roundtrip _ _ Hndb Hlb Hokb).
    destruct b; cbn in Hbw |- *; subst; reflexivity. }
  (* the targets *)
  destruct (get "targets" fs) as [| | | | | xs |] eqn:Etg; unfold targets_codec in Htg;
    try (unfold ret in Htg; inversion Htg; fail).
  apply t_array_targets_inv in Htg as [_ Hall]; specialize (Hall ts eq_refl).
  assert (Hwfx : forall x, In x xs -> wf_js x = true)
    by (apply wf_js_elems; rewrite <- Etg; apply wf_js_get; exact Hwf).
  assert (Htgt : Forall (fun t => AccDiffTarget_codec tsch (encode_target tsch t) w1 =
                                  (w1, Ok (VOk t))) ts).
  { apply Forall_forall; intros t Ht.
    destruct (Forall2_in_r _ _ _ _ Hall Ht) as (x & Hx & o & Ho & Hf & Et).
    destruct (AccDiffTarget_schemaCodec_inv _ _ _ Ho) as (xf & Exf & Hpo).
    assert (Hp : t_plugins t = to_plugins o) by (rewrite Et; reflexivity).
    apply AccDiffTarget_codec_encode.
    - rewrite Hp; apply plugins_roundtrip; [exact Hndt | exact Hlt |].
      apply (plugins_decoded_ok _ (get "plugins" xf)); [exact Hndt | | exact Hpo |].
      + apply wf_js_get; rewrite <- Exf; exact (Hwfx x Hx).
      + rewrite <- Hp; rewrite forallb_forall in Hrts; exact (Hrts t Ht).
    - rewrite Hw1; exact (find_token_id _ _ _ Hf).
    - rewrite Et; reflexivity.
    - rewrite Et; reflexivity. }
  assert (Htargets : targets_codec tsch
            (JArr (map (encode_target tsch) (map (hyd_target wp (hyd_base wp b)) ts))) w1 =
            (w1, Ok (VOk ts))).
  { unfold targets_codec.
    replace (map (encode_target tsch) (map (hyd_target wp (hyd_base wp b)) ts))
      with (map (encode_target tsch) ts)
      by (rewrite map_map; apply map_ext; reflexivity).
    exact (t_array_targets_encode _ _ _ Htgt). }
  (* the aggregate *)
  assert (Hc : AccDiffData_codec wsch bsch tsch
                 (encode_data wsch bsch tsch
                    (mkData ttl wp (hyd_base wp b) (map (hyd_target wp (hyd_base wp b)) ts))) w1
               = (log_many w1 (hydration_trace (length ts)),
                  Ok (VOk (mkData ttl wp (hyd_base wp b)
                                  (map (hyd_target wp (hyd_base wp b)) ts))))).
  { unfold encode_data; cbn [title d_weapon d_base d_targets].
    rewrite (AccDiffData_codec_ok _ _ _ _ ttl wp b ts w1);
      [| reflexivity | exact Hweapon | exact Hbase | exact Htargets].
    unfold bind; rewrite AccDiffData_new_ok by assumption; reflexivity. }
  unfold fromObject, decode, toObject; fold wsch bsch tsch.
  rewrite (bind_ok_eq _ _ _ _ _ Hc); cbn [d_targets]; rewrite length_map; reflexivity.
Qed.

Lemma fromObject_toObject_witness :
  fromObject (registry_of [inv_plugin]) data_json_inv world_ex =
    (log_many world_ex (hydration_trace 1), Ok data_inv_ex) /\
  fromObject (registry_of [inv_plugin]) (toObject (registry_of [inv_plugin]) data_inv_ex)
    (log_many world_ex (hydration_trace 1)) =
    (log_many (log_many world_ex (hydration_trace 1)) (hydration_trace 1), Ok data_inv_ex).
Proof.
  assert (E : fromObject (registry_of [inv_plugin]) data_json_inv world_ex =
                (log_many world_ex (hydration_trace 1), Ok data_inv_ex))
    by (vm_compute; reflexivity).
  split; [exact E |].
  refine (fromObject_toObject [inv_plugin] data_json_inv world_ex _ _ _ eq_refl E).
  constructor; [| constructor].
  intros [] d Hv; simpl in Hv |- *; inversion Hv; reflexivity.
Defined.

(** ** Registry as folds *)

Lemma fold_left_ext_pt {A B : Type} (f g : A -> B -> A) (l : list B) (a : A) :
  (forall a x, f a x = g a x) -> fold_left f l a = fold_left g l a.
Proof. revert a; induction l as [| x l IH]; intros a H; simpl; [reflexivity |]. rewrite H; auto. Qed.

Lemma fold_left_filter {A B : Type} (f : A -> B -> A) (p : B -> bool) (l : list B) (a : A) :
  (forall a x, p x = false -> f a x = a) ->
  fold_left f (filter p l) a = fold_left f l a.
Proof.
  revert a; induction l as [| x l IH]; intros a H; simpl; [reflexivity |].
  destruct (p x) eqn:E; simpl; [auto | rewrite (H a x E); auto].
Qed.

Lemma registry_fold (ps : list AccDiffPlugin) (r : registry) :
  let r' := fold_left registerPlugin ps r in
  weaponSchema r' =
    fold_left (fun s p => match perRoll p with
                          | Some _ => assoc_set (slug p) (p_codec p) s | None => s end)
              ps (weaponSchema r) /\
  baseSchema r' =
    fold_left (fun s p => match perUnknownTarget p with
                          | Some _ => assoc_set (slug p) (p_codec p) s | None => s end)
              ps (baseSchema r) /\
  targetSchema r' =
    fold_left (fun s p => match perTarget p with
                          | Some _ => assoc_set (slug p) (p_codec p) s | None => s end)
              ps (targetSchema r) /\
  r_plugins r' = r_plugins r ++ ps /\
  r_targetedPlugins r' =
    r_targetedPlugins r ++
      filter (fun p => match perTarget p with Some _ => true | None => false end) ps.
Proof.
  revert r; induction ps as [| p ps IH]; intros r; simpl.
  - rewrite !app_nil_r; auto.
  - destruct (IH (registerPlugin r p)) as (H1 & H2 & H3 & H4 & H5).
    rewrite H1, H2, H3, H4, H5; unfold registerPlugin; cbn.
    rewrite <- app_assoc; repeat split; try reflexivity.
    destruct (perTarget p); simpl; [rewrite <- app_assoc |]; reflexivity.
Qed.

(** ** Default plugin maps agree with the schemas *)

Section Defaults.
Variable g : AccDiffPlugin -> option jsval.

Lemma defaults_valid_fold (ps : list AccDiffPlugin) (sch : schema)
  (defs : list (string * jsval)) :
  (forall p y, In p ps -> g p = Some y -> c_validate (p_codec p) (c_encode (p_codec p) y) <> None) ->
  plugin_defaults_valid sch defs ->
  plugin_defaults_valid
    (fold_left (fun s p => match g p with
                           | Some _ => assoc_set (slug p) (p_codec p) s | None => s end) ps sch)
    (fold_left (fun a p => match g p with
                           | Some y => assoc_set (slug p) (c_encode (p_codec p) y) a
                           | None => a end) ps defs).
Proof.
  revert sch defs; induction ps as [| p ps IH]; intros sch defs Hv [Hns [Hnd Hk]]; simpl;
    [repeat split; assumption |].
  apply IH; [intros q y Hq; apply Hv; right; exact Hq |].
  destruct (g p) as [y |] eqn:Eg; [| repeat split; assumption].
  split; [apply assoc_set_nodup, Hns | split; [apply assoc_set_nodup, Hnd |]].
  intros k; destruct (String.eqb k (slug p)) eqn:E.
  - apply String.eqb_eq in E; subst k; rewrite !lookup_assoc_set_eq.
    exact (Hv p y (or_introl eq_refl) Eg).
  - assert (Hne : k <> slug p) by (intros ->; rewrite String.eqb_refl in E; discriminate).
    rewrite !lookup_assoc_set_neq by exact Hne; apply Hk.
Qed.

End Defaults.

Lemma defaults_valid_nil : plugin_defaults_valid [] [].
Proof. split; [constructor | split; [constructor | intros k; exact I]]. Qed.

(** A plain plugin map that agrees with the schema validates, and every
    entry of the result is plugin data. *)
Lemma t_type_plugins_defaults (sch : schema) (defs : list (string * jsval)) :
  plugin_defaults_valid sch defs ->
  exists m, t_type_plugins sch (JObj defs) = VOk m /\ no_raw m = true.
Proof.
  intros [Hns [Hnd Hk]].
  assert (Hall : forall kc, In kc sch -> c_validate (snd kc) (get (fst kc) defs) <> None).
  { intros [k c] Hin; simpl.
    specialize (Hk k); rewrite (In_lookup_nodup _ _ _ Hns Hin) in Hk.
    unfold get; destruct (lookup k defs); [exact Hk | destruct Hk]. }
  unfold t_type_plugins; rewrite plugin_fold_all by exact Hall; cbv beta iota.
  eexists; split; [reflexivity |].
  match goal with |- no_raw ?m = true => set (mm := m) end.
  assert (Hndm : NoDup (map fst mm))
    by (apply fold_set_nodup; unfold raw_plugins; rewrite keys_map_pair; exact Hnd).
  unfold no_raw; apply forallb_forall; intros [k e] Hin.
  pose proof (In_lookup_nodup _ _ _ Hndm Hin) as E.
  unfold mm in E; rewrite fold_set_lookup in E by exact Hns.
  specialize (Hk k).
  destruct (lookup k sch) as [c |].
  - inversion E; reflexivity.
  - rewrite lookup_raw_plugins in E.
    destruct (lookup k defs); [destruct Hk | discriminate].
Qed.

Lemma registry_of_fold (ps : list AccDiffPlugin) :
  weaponSchema (registry_of ps) =
    fold_left (fun s p => match perRoll p with
                          | Some _ => assoc_set (slug p) (p_codec p) s | None => s end) ps [] /\
  baseSchema (registry_of ps) =
    fold_left (fun s p => match perUnknownTarget p with
                          | Some _ => assoc_set (slug p) (p_codec p) s | None => s end) ps [] /\
  targetSchema (registry_of ps) =
    fold_left (fun s p => match perTarget p with
                          | Some _ => assoc_set (slug p) (p_codec p) s | None => s end) ps [] /\
  r_plugins (registry_of ps) = ps /\
  r_targetedPlugins (registry_of ps) =
    filter (fun p => match perTarget p with Some _ => true | None => false end) ps.
Proof. exact (registry_fold ps empty_registry). Qed.

Lemma weapon_defaults_valid (ps : list AccDiffPlugin) (item : option jsval) :
  (forall p f, In p ps -> perRoll p = Some f ->
     c_validate (p_codec p) (c_encode (p_codec p) (f item)) <> None) ->
  plugin_defaults_valid (weaponSchema (registry_of ps))
    (weapon_plugin_defaults (r_plugins (registry_of ps)) item).
Proof.
  intros Hv; destruct (registry_of_fold ps) as (-> & _ & _ & -> & _).
  unfold weapon_plugin_defaults.
  set (g := fun p => option_map (fun f => f item) (perRoll p)).
  rewrite (fold_left_ext_pt _ (fun s p => match g p with
              | Some _ => assoc_set (slug p) (p_codec p) s | None => s end))
    by (intros a x; unfold g; destruct (perRoll x); reflexivity).
  rewrite (fold_left_ext_pt _ (fun a p => match g p with
              | Some y => assoc_set (slug p) (c_encode (p_codec p) y) a | None => a end))
    by (intros a x; unfold g; destruct (perRoll x); reflexivity).
  apply defaults_valid_fold; [| exact defaults_valid_nil].
  intros p y Hp; unfold g; destruct (perRoll p) as [f |] eqn:E; simpl; intros Hy;
    inversion Hy; subst; exact (Hv p f Hp E).
Qed.

Lemma base_defaults_valid (ps : list AccDiffPlugin) :
  (forall p f, In p ps -> perUnknownTarget p = Some f ->
     c_validate (p_codec p) (c_encode (p_codec p) (f tt)) <> None) ->
  plugin_defaults_valid (baseSchema (registry_of ps))
    (base_plugin_defaults (r_plugins (registry_of ps))).
Proof.
  intros Hv; destruct (registry_of_fold ps) as (_ & -> & _ & -> & _).
  unfold base_plugin_defaults.
  set (g := fun p => option_map (fun f => f tt) (perUnknownTarget p)).
  rewrite (fold_left_ext_pt _ (fun s p => match g p with
              | Some _ => assoc_set (slug p) (p_codec p) s | None => s end))
    by (intros a x; unfold g; destruct (perUnknownTarget x); reflexivity).
  rewrite (fold_left_ext_pt _ (fun a p => match g p with
              | Some y => assoc_set (slug p) (c_encode (p_codec p) y) a | None => a end))
    by (intros a x; unfold g; destruct (perUnknownTarget x); reflexivity).
  apply defaults_valid_fold; [| exact defaults_valid_nil].
  intros p y Hp; unfold g; destruct (perUnknownTarget p) as [f |] eqn:E; simpl; intros Hy;
    inversion Hy; subst; exact (Hv p f Hp E).
Qed.

Lemma target_defaults_valid (ps : list AccDiffPlugin) (t : token) :
  (forall p f, In p ps -> perTarget p = Some f ->
     c_validate (p_codec p) (c_encode (p_codec p) (f t)) <> None) ->
  plugin_defaults_valid (targetSchema (registry_of ps))
    (target_plugin_defaults (r_targetedPlugins (registry_of ps)) t).
Proof.
  intros Hv; destruct (registry_of_fold ps) as (_ & _ & -> & _ & ->).
  unfold target_plugin_defaults; rewrite fold_left_filter
    by (intros a x; destruct (perTarget x); [discriminate | reflexivity]).
  set (g := fun p => option_map (fun f => f t) (perTarget p)).
  rewrite (fold_left_ext_pt _ (fun s p => match g p with
              | Some _ => assoc_set (slug p) (p_codec p) s | None => s end))
    by (intros a x; unfold g; destruct (perTarget x); reflexivity).
  rewrite (fold_left_ext_pt _ (fun a p => match g p with
              | Some y => assoc_set (slug p) (c_encode (p_codec p) y) a | None => a end))
    by (intros a x; unfold g; destruct (perTarget x); reflexivity).
  apply defaults_valid_fold; [| exact defaults_valid_nil].
  intros p y Hp; unfold g; destruct (perTarget p) as [f |] eqn:E; simpl; intros Hy;
    inversion Hy; subst; exact (Hv p f Hp E).
Qed.

(** ** Decoding the object built by [fromParams] *)

Lemma weapon_params_codec (sch : schema) (a i s : bool) (P : jsval) (m : plugins) :
  t_type_plugins sch P = VOk m ->
  AccDiffWeapon_codec sch (JObj [("accurate", JBool a); ("inaccurate", JBool i);
                                 ("seeking", JBool s); ("plugins", P)]) = VOk (mkWeapon a i s m).
Proof. intros H; unfold AccDiffWeapon_codec; cbn; rewrite H; reflexivity. Qed.

Lemma base_params_codec (sch : schema) (x y : Z) (P : jsval) (m : plugins) :
  t_type_plugins sch P = VOk m ->
  AccDiffBase_codec sch (JObj [("cover", JNum (cover_value CoverNone)); ("accuracy", JNum x);
                               ("difficulty", JNum y); ("plugins", P)]) =
    VOk (mkBase x y CoverNone m None).
Proof. intros H; unfold AccDiffBase_codec; cbn; rewrite H; reflexivity. Qed.

Lemma target_default_schemaCodec (sch : schema) (tps : list AccDiffPlugin) (t : token)
  (m : plugins) :
  t_type_plugins sch (JObj (target_plugin_defaults tps t)) = VOk m ->
  AccDiffTarget_schemaCodec sch (target_default tps t) =
    VOk (mkTargetObj (tk_id t) 0 0 CoverNone true m).
Proof.
  intros H; unfold AccDiffTarget_schemaCodec, target_default.
  remember (JObj (target_plugin_defaults tps t)) as P eqn:EP.
  cbn; rewrite H; reflexivity.
Qed.

Lemma target_defaults_array (sch : schema) (tps : list AccDiffPlugin) (toks : list token)
  (w : world) :
  (forall t, In t toks -> exists m,
      t_type_plugins sch (JObj (target_plugin_defaults tps t)) = VOk m /\ no_raw m = true) ->
  (forall t, In t toks -> find_token (tk_id t) (w_tokens w) = Some t) ->
  exists ts, t_array_targets sch (map (target_default tps) toks) w = (w, Ok (VOk ts)) /\
    map t_target ts = toks /\
    Forall (fun t => t_accuracy t = 0%Z /\ t_difficulty t = 0%Z /\ t_cover t = CoverNone /\
                     t_consumeLockOn t = true) ts /\
    forallb (fun t => no_raw (t_plugins t)) ts = true.
Proof.
  induction toks as [| tok toks IH]; intros Hp Hf.
  - exists []; repeat split; constructor.
  - destruct (Hp tok (or_introl eq_refl)) as [m [Hm Hr]].
    destruct IH as (ts & Hts & Htg & Hall & Hraw);
      [intros t Ht; apply Hp; right; exact Ht | intros t Ht; apply Hf; right; exact Ht |].
    exists (mkTarget tok 0 0 CoverNone true m None None :: ts).
    cbn [map t_array_targets].
    assert (Hc : AccDiffTarget_codec sch (target_default tps tok) w =
                 (w, Ok (VOk (mkTarget tok 0 0 CoverNone true m None None)))).
    { unfold AccDiffTarget_codec; rewrite (target_default_schemaCodec _ _ _ _ Hm).
      unfold AccDiffTarget_new, bind, get_world, ret; cbn [to_target_id].
      rewrite (Hf tok (or_introl eq_refl)); reflexivity. }
    rewrite (bind_ok_eq _ _ _ _ _ Hc), (bind_ok_eq _ _ _ _ _ Hts).
    split; [reflexivity | split; [| split]].
    + cbn; rewrite Htg; reflexivity.
    + constructor; [repeat split | exact Hall].
    + change (no_raw m && forallb (fun t => no_raw (t_plugins t)) ts = true).
      rewrite Hr; exact Hraw.
Qed.

(** X1: [fromParams] with every target token in the scene, and plugin
    codecs that accept the encodings of the plugins' defaults, succeeds; the
    construction logs exactly the hydration of the weapon, the base and one
    target per token; the base has the [starting] accuracy and difficulty
    (0 and 0 without it) and no cover; the targets are the given tokens, in
    order, each with accuracy 0, difficulty 0, no cover and
    [consumeLockOn] set. *)
Theorem fromParams_defaults (ps : list AccDiffPlugin) (item : option jsval)
  (tags : option (list TagInstance)) (ttl : option string) (toks : list token)
  (starting : option (Z * Z)) (w : world)
  (Hroll : forall p f, In p ps -> perRoll p = Some f ->
             c_validate (p_codec p) (c_encode (p_codec p) (f item)) <> None)
  (Hunk : forall p f, In p ps -> perUnknownTarget p = Some f ->
             c_validate (p_codec p) (c_encode (p_codec p) (f tt)) <> None)
  (Htgt : forall p f t, In p ps -> perTarget p = Some f -> In t toks ->
             c_validate (p_codec p) (c_encode (p_codec p) (f t)) <> None)
  (Hscene : forall t, In t toks -> find_token (tk_id t) (w_tokens w) = Some t) :
  exists d,
    fromParams (registry_of ps) item tags ttl (Some toks) starting w =
      (log_many w (hydration_trace (length toks)), Ok d) /\
    b_accuracy (d_base d) = (match starting with Some (x, _) => x | None => 0%Z end) /\
    b_difficulty (d_base d) = (match starting with Some (_, y) => y | None => 0%Z end) /\
    b_cover (d_base d) = CoverNone /\
    map t_target (d_targets d) = toks /\
    Forall (fun t => t_accuracy t = 0%Z /\ t_difficulty t = 0%Z /\ t_cover t = CoverNone /\
                     t_consumeLockOn t = true) (d_targets d).
Proof.
  destruct (t_type_plugins_defaults _ _ (weapon_defaults_valid ps item Hroll)) as [mw [Hmw Hrw]].
  destruct (t_type_plugins_defaults _ _ (base_defaults_valid ps Hunk)) as [mb [Hmb Hrb]].
  destruct (target_defaults_array (targetSchema (registry_of ps))
              (r_targetedPlugins (registry_of ps)) toks w) as (ts & Hts & Htg & Hall & Hraw).
  { intros t Ht; apply t_type_plugins_defaults, target_defaults_valid.
    intros p f Hp Ef; exact (Htgt p f t Hp Ef Ht). }
  { exact Hscene. }
  unfold fromParams.
  destruct (weapon_flags (match tags with Some l => l | None => [] end)) as [[a i] s].
  unfold fromObject, decode; unfold bind at 1.
  rewrite (AccDiffData_codec_ok _ _ _ _ (title_of ttl) (mkWeapon a i s mw)
             (mkBase (match starting with Some (x, _) => x | None => 0%Z end)
                     (match starting with Some (_, y) => y | None => 0%Z end) CoverNone mb None)
             ts w);
    [| reflexivity | exact (weapon_params_codec _ _ _ _ _ _ Hmw)
     | exact (base_params_codec _ _ _ _ _ Hmb) | exact Hts].
  unfold bind; rewrite AccDiffData_new_ok by assumption.
  unfold ret.
  assert (Hl : length ts = length toks) by (rewrite <- Htg, length_map; reflexivity).
  rewrite Hl; eexists; split; [reflexivity |].
  cbn [d_base d_targets b_accuracy b_difficulty b_cover hyd_base].
  split; [reflexivity | split; [reflexivity | split; [reflexivity | split]]].
  - rewrite map_map; rewrite <- Htg; apply map_ext; reflexivity.
  - apply Forall_map; exact Hall.
Qed.

Lemma fromParams_defaults_witness :
  exists d,
    fromParams (registry_of [inv_plugin]) None (Some []) None (Some [tokA]) (Some (2%Z, 1%Z))
      world_ex = (log_many world_ex (hydration_trace 1), Ok d) /\
    b_accuracy (d_base d) = 2%Z /\ b_difficulty (d_base d) = 1%Z /\
    b_cover (d_base d) = CoverNone /\ map t_target (d_targets d) = [tokA] /\
    Forall (fun t => t_accuracy t = 0%Z /\ t_difficulty t = 0%Z /\ t_cover t = CoverNone /\
                     t_consumeLockOn t = true) (d_targets d).
Proof.
  apply (fromParams_defaults [inv_plugin] None (Some []) None [tokA] (Some (2%Z, 1%Z)) world_ex).
  - intros p f [<- | []] E; simpl in E; inversion E; subst; simpl; discriminate.
  - intros p f [<- | []] E; simpl in E; discriminate.
  - intros p f t [<- | []] E _; simpl in E; inversion E; subst; simpl; discriminate.
  - intros t [<- | []]; reflexivity.
Defined.

(** X2: [fromParams] given a target token that the current scene does not
    have notifies the user once and throws [Error("Token not found")],
    whatever the other parameters, provided the target plugins' codecs
    accept their defaults' encodings. *)
Theorem fromParams_target_not_in_scene (ps : list AccDiffPlugin) (item : option jsval)
  (tags : option (list TagInstance)) (ttl : option string) (toks : list token)
  (starting : option (Z * Z)) (w : world) (tok : token)
  (Htgt : forall p f t, In p ps -> perTarget p = Some f -> In t toks ->
             c_validate (p_codec p) (c_encode (p_codec p) (f t)) <> None)
  (Hin : In tok toks) (Hnf : find_token (tk_id tok) (w_tokens w) = None) :
  fromParams (registry_of ps) item tags ttl (Some toks) starting w =
    (notified w token_not_found_msg, Throw (JsError "Token not found")).
Proof.
  destruct (t_type_plugins_defaults _ _ (target_defaults_valid ps tok
              (fun p f Hp Ef => Htgt p f tok Hp Ef Hin))) as [m [Hm _]].
  pose proof (target_default_schemaCodec _ _ _ _ Hm) as Ho.
  unfold fromParams.
  destruct (weapon_flags (match tags with Some l => l | None => [] end)) as [[a i] s].
  unfold fromObject, decode; apply bind_throw_eq.
  unfold AccDiffData_codec; cbv beta iota zeta; apply bind_throw_eq.
  exact (t_array_targets_unresolved _ _ _ _ _ (in_map _ _ _ Hin) Ho Hnf).
Qed.

Lemma fromParams_target_not_in_scene_witness :
  fromParams (registry_of [inv_plugin]) None None (Some "Shot")
    (Some [tokA; mkToken "Z" "actZ"]) None world_ex =
    (notified world_ex token_not_found_msg, Throw (JsError "Token not found")).
Proof.
  apply (fromParams_target_not_in_scene [inv_plugin] None None (Some "Shot")
           [tokA; mkToken "Z" "actZ"] None world_ex (mkToken "Z" "actZ")).
  - intros p f t [<- | []] E _; simpl in E; inversion E; subst; simpl; discriminate.
  - right; left; reflexivity.
  - reflexivity.
Defined.

Lemma fold_schema_lookup {X : Type} (sel : AccDiffPlugin -> option X)
  (ps : list AccDiffPlugin) (s0 : schema) (k : string) :
  lookup k (fold_left (fun s p => match sel p with
                                  | Some _ => assoc_set (slug p) (p_codec p) s | None => s end) ps s0) =
  match find (fun p => String.eqb (slug p) k &&
                       match sel p with Some _ => true | None => false end) (rev ps) with
  | Some p => Some (p_codec p)
  | None => lookup k s0
  end.
Proof.
  induction ps as [| x ps IH] using rev_ind; [reflexivity |].
  rewrite fold_left_app, rev_app_distr; cbn [rev app fold_left find].
  destruct (sel x); rewrite ?andb_true_r, ?andb_false_r; [| exact IH].
  destruct (String.eqb_spec (slug x) k) as [<- | Hne].
  - apply lookup_assoc_set_eq.
  - rewrite lookup_assoc_set_neq by congruence; exact IH.
Qed.

(** X3: after registering the plugins [ps] in order, the codec that the
    weapon (resp. base, target) plugin schema holds under a slug is the codec
    of the last registered plugin with that slug and a [perRoll] (resp.
    [perUnknownTarget], [perTarget]) producer; a slug no such plugin has is
    absent. Registering a plugin without the producer leaves that schema
    alone. *)
Theorem registry_of_schema_lookup (ps : list AccDiffPlugin) (k : string) :
  lookup k (weaponSchema (registry_of ps)) =
    option_map p_codec (find (fun p => String.eqb (slug p) k &&
                          match perRoll p with Some _ => true | None => false end) (rev ps)) /\
  lookup k (baseSchema (registry_of ps)) =
    option_map p_codec (find (fun p => String.eqb (slug p) k &&
                          match perUnknownTarget p with Some _ => true | None => false end) (rev ps)) /\
  lookup k (targetSchema (registry_of ps)) =
    option_map p_codec (find (fun p => String.eqb (slug p) k &&
                          match perTarget p with Some _ => true | None => false end) (rev ps)).
Proof.
  destruct (registry_of_fold ps) as (-> & -> & -> & _ & _).
  rewrite !fold_schema_lookup.
  split; [| split];
    match goal with |- match ?f with _ => _ end = _ => destruct f; reflexivity end.
Qed.


Lemma targets_hydrate_world (d : AccDiffData) (i : nat) (ts : list AccDiffTarget)
  (w w' : world) (r : res (list AccDiffTarget)) :
  targets_hydrate d i ts w = (w', r) -> exists evs, w' = log_many w evs.
Proof.
  revert i w w' r; induction ts as [| t ts IH]; intros i w w' r H; simpl in H.
  - unfold ret in H; inversion H; subst; exists []; symmetry; apply log_many_nil.
  - unfold bind at 1 in H; rewrite AccDiffTarget_hydrate_spec in H.
    destruct (no_raw (t_plugins t)); [| inversion H; subst; eauto].
    unfold bind in H.
    destruct (targets_hydrate d (S i) ts (log_many w (target_trace i)))
      as [w2 r2] eqn:E.
    destruct (IH _ _ _ _ E) as [evs ->].
    exists (target_trace i ++ evs); rewrite <- log_many_app.
    destruct r2; unfold ret in H; inversion H; reflexivity.
Qed.

Lemma AccDiffData_new_world (ttl : string) (wp : AccDiffWeapon) (b : AccDiffBase)
  (ts : list AccDiffTarget) (w w' : world) (r : res AccDiffData) :
  AccDiffData_new ttl wp b ts w = (w', r) -> exists evs, w' = log_many w evs.
Proof.
  unfold AccDiffData_new, bind at 1; intros H.
  rewrite AccDiffWeapon_hydrate_spec in H; cbn [d_weapon d_base d_targets] in H.
  destruct (no_raw (w_plugins wp)); [| inversion H; subst; eauto].
  unfold bind at 1 in H; rewrite AccDiffBase_hydrate_spec in H.
  cbn [d_weapon d_base d_targets] in H.
  destruct (no_raw (b_plugins b)); [| inversion H; subst; rewrite log_many_app; eauto].
  unfold bind in H.
  lazymatch type of H with
  | context [targets_hydrate ?d1 ?i ?ts1 ?w1] =>
      destruct (targets_hydrate d1 i ts1 w1) as [w2 r2] eqn:E
  end.
  destruct (targets_hydrate_world _ _ _ _ _ _ E) as [evs ->].
  rewrite !log_many_app in *; eexists.
  destruct r2; unfold ret in H; inversion H; reflexivity.
Qed.

Lemma t_array_targets_throw (sch : schema) (xs : list jsval) (w w' : world) (e : exn) :
  t_array_targets sch xs w = (w', Throw e) ->
  e = JsError "Token not found" /\ w' = notified w token_not_found_msg.
Proof.
  revert w; induction xs as [| x xs IH]; intros w H; simpl in H.
  - unfold ret in H; inversion H.
  - destruct (AccDiffTarget_codec_cases sch x w) as [[r Hr] | [o [_ [_ Hr]]]].
    + rewrite (bind_ok_eq _ _ _ _ _ Hr) in H; unfold bind in H.
      destruct (t_array_targets sch xs w) as [w2 [rs | e2]] eqn:E.
      * unfold ret in H; inversion H.
      * inversion H; subst; exact (IH _ E).
    + rewrite (bind_throw_eq _ _ _ _ _ Hr) in H; inversion H; auto.
Qed.

Lemma AccDiffData_codec_outcome (wsch bsch tsch : schema) (u : jsval)
  (w w' : world) (r : res (valid AccDiffData)) :
  AccDiffData_codec wsch bsch tsch u w = (w', r) ->
  (exists es, r = Ok (VErr es) /\ w' = w) \/
  (exists d, r = Ok (VOk d)) \/
  (r = Throw (JsError "Token not found") /\ w' = notified w token_not_found_msg) \/
  (r = Throw TypeError /\ exists evs, w' = log_many w evs).
Proof.
  intros H; destruct u as [| | | | | | fs];
    try (unfold AccDiffData_codec, ret in H; inversion H; subst; left; eauto; fail).
  unfold AccDiffData_codec in H; cbv beta iota zeta in H.
  unfold bind at 1 in H.
  destruct (targets_codec tsch (get "targets" fs) w) as [w2 [rts | e2]] eqn:Et.
  - assert (w2 = w) as ->.
    { unfold targets_codec in Et; destruct (get "targets" fs);
        try (unfold ret in Et; inversion Et; reflexivity).
      exact (proj1 (t_array_targets_inv _ _ _ _ _ Et)). }
    destruct (t_string "title" (get "title" fs));
      destruct (AccDiffWeapon_codec wsch (get "weapon" fs));
      destruct (AccDiffBase_codec bsch (get "base" fs)); destruct rts;
      try (unfold ret in H; inversion H; subst; left; eauto; fail).
    unfold bind in H.
    lazymatch type of H with
    | context [AccDiffData_new ?t1 ?w1 ?b1 ?ts1 ?wd] =>
        destruct (AccDiffData_new t1 w1 b1 ts1 wd) as [w3 [d | e3]] eqn:En
    end.
    + unfold ret in H; inversion H; subst; right; left; eauto.
    + inversion H; subst.
      pose proof (AccDiffData_new_throw _ _ _ _ _ _ _ En) as ->.
      right; right; right; split; [reflexivity | exact (AccDiffData_new_world _ _ _ _ _ _ _ En)].
  - inversion H; subst.
    unfold targets_codec in Et; destruct (get "targets" fs);
      try (unfold ret in Et; inversion Et; fail).
    destruct (t_array_targets_throw _ _ _ _ _ Et) as [-> ->].
    right; right; left; auto.
Qed.

(** X5: when [AccDiffData.fromObject] fails, it fails in one of three ways:
    a validation error that leaves the world as it was; [Error("Token not
    found")] after exactly one notification, when a target's token is not in
    the scene; or a [TypeError] from hydrating undecoded plugin data, after
    which the world differs only by the hydration log (no token, actor or
    notification touched). *)
Theorem fromObject_failure (r : registry) (u : jsval) (w w' : world) (e : exn)
  (H : fromObject r u w = (w', Throw e)) :
  (exists es, e = ValidationError es /\ w' = w) \/
  (e = JsError "Token not found" /\ w' = notified w token_not_found_msg) \/
  (e = TypeError /\ exists evs, w' = log_many w evs).
Proof.
  unfold fromObject, decode, bind at 1 in H.
  destruct (AccDiffData_codec (weaponSchema r) (baseSchema r) (targetSchema r) u w)
    as [w1 r1] eqn:E.
  apply AccDiffData_codec_outcome in E.
  destruct r1 as [[d | es] | e1].
  - unfold ret in H; inversion H.
  - unfold throw in H; inversion H; subst.
    destruct E as [[es0 [Er ->]] | [[d0 Er] | [[Er _] | [Er _]]]]; try discriminate.
    left; eauto.
  - inversion H; subst.
    destruct E as [[es0 [Er _]] | [[d0 Er] | [[Er Ew] | [Er Ew]]]]; try discriminate;
      inversion Er; subst; right; [left | right]; auto.
Qed.

Lemma fromObject_failure_witness :
  (exists es, ValidationError ["AccDiffData"] = ValidationError es /\ world_ex = world_ex) \/
  (ValidationError ["AccDiffData"] = JsError "Token not found" /\
   world_ex = notified world_ex token_not_found_msg) \/
  (ValidationError ["AccDiffData"] = TypeError /\ exists evs, world_ex = log_many world_ex evs).
Proof.
  apply (fromObject_failure (registry_of []) JNull world_ex world_ex).
  reflexivity.
Defined.

Lemma find_lockon_missing_core (pre post : list effect) (e : effect) :
  Forall (fun e' => exists sid, eff_core e' = Some sid /\ sid <> Some "lockon") pre ->
  eff_core e = None ->
  find_lockon (pre ++ e :: post) = Throw TypeError.
Proof.
  intros Hpre He; induction Hpre as [| e' pre [sid [Hc Hs]] _ IH]; simpl.
  - rewrite He; reflexivity.
  - rewrite Hc.
    destruct sid as [s |]; [| exact IH].
    destruct (String.eqb_spec s "lockon") as [-> | _]; [congruence | exact IH].
Qed.



(** X8: for a hydrated target with [consumeLockOn] on, [total] throws a
    [TypeError] (changing nothing) when the target token's actor is not
    there, and when the actor has an effect without core flags before any
    effect whose status is "lockon". *)
Theorem AccDiffTarget_total_lockon_errors (t : AccDiffTarget) (wp : AccDiffWeapon)
  (b : AccDiffBase) (w : world) (Hw : t_weapon t = Some wp) (Hb : t_base t = Some b)
  (Hc : t_consumeLockOn t = true)
  (Hbad : lookup (tk_actor (t_target t)) (w_actors w) = None \/
          exists pre e post,
            lookup (tk_actor (t_target t)) (w_actors w) = Some (pre ++ e :: post) /\
            Forall (fun e' => exists sid, eff_core e' = Some sid /\ sid <> Some "lockon") pre /\
            eff_core e = None) :
  AccDiffTarget_total t w = (w, Throw TypeError).
Proof.
  unfold AccDiffTarget_total; rewrite Hw, Hb.
  unfold usingLockOn; rewrite Hc; unfold bind, lockOnAvailable.
  destruct Hbad as [Ha | (pre & e & post & Ha & Hpre & He)]; rewrite Ha; [reflexivity |].
  rewrite (find_lockon_missing_core _ _ _ Hpre He); reflexivity.
Qed.

Lemma AccDiffTarget_total_lockon_errors_witness :
  AccDiffTarget_total targetA_ex (mkWorld [tokA] [] [] []) =
    (mkWorld [tokA] [] [] [], Throw TypeError) /\
  AccDiffTarget_total targetA_ex
    (mkWorld [tokA] [("actA", [mkEffect "e0" (Some (Some "bolster")); mkEffect "e2" None;
                               lockon_effect])] [] []) =
    (mkWorld [tokA] [("actA", [mkEffect "e0" (Some (Some "bolster")); mkEffect "e2" None;
                               lockon_effect])] [] [], Throw TypeError).
Proof.
  split.
  - apply (AccDiffTarget_total_lockon_errors targetA_ex weapon_ex base_ex
             (mkWorld [tokA] [] [] [])); try reflexivity.
    left; reflexivity.
  - apply (AccDiffTarget_total_lockon_errors targetA_ex weapon_ex base_ex
             (mkWorld [tokA] [("actA", [mkEffect "e0" (Some (Some "bolster"));
                                        mkEffect "e2" None; lockon_effect])] [] []));
      try reflexivity.
    right; exists [mkEffect "e0" (Some (Some "bolster"))], (mkEffect "e2" None), [lockon_effect].
    split; [reflexivity | split; [| reflexivity]].
    constructor; [| constructor].
    exists (Some "bolster"); split; [reflexivity | discriminate].
Defined.

(** ** Unknown and missing plugin keys through decoding *)

Lemma Forall2_in_l_In {A B : Type} (R : A -> B -> Prop) (xs : list A) (ys : list B) (x : A) :
  Forall2 R xs ys -> In x xs -> exists y, In y ys /\ R x y.
Proof.
  induction 1 as [| x0 y0 xs' ys' H0 _ IH]; intros Hin; [destruct Hin |].
  destruct Hin as [-> | Hin]; [exists y0; split; [left; reflexivity | exact H0] |].
  destruct (IH Hin) as [y [Hy Hr]]; exists y; split; [right; exact Hy | exact Hr].
Qed.

Lemma t_type_plugins_missing (sch : schema) (pf : list (string * jsval)) (k : string)
  (c : codec) :
  lookup k sch = Some c -> lookup k pf = None -> c_validate c JUndef = None ->
  exists es, t_type_plugins sch (JObj pf) = VErr es /\ In k es.
Proof.
  intros Hk Hpf Hc.
  assert (Hin : In k (verrs (t_type_plugins sch (JObj pf)))).
  { rewrite t_type_plugins_verrs; unfold plugin_fails.
    apply in_map_iff; exists (k, c); split; [reflexivity |].
    apply filter_In; split; [apply lookup_In; exact Hk |].
    simpl; unfold get; rewrite Hpf, Hc; reflexivity. }
  destruct (t_type_plugins sch (JObj pf)) as [m | es]; [simpl in Hin; contradiction |].
  exists es; split; [reflexivity | exact Hin].
Qed.

Lemma missing_entity_errs (sch : schema) (u : jsval) (k : string) :
  missing_plugin_key sch u k ->
  In k (verrs (AccDiffWeapon_codec sch u)) /\
  In k (verrs (AccDiffBase_codec sch u)) /\
  In k (verrs (AccDiffTarget_schemaCodec sch u)).
Proof.
  intros (ef & pf & c & -> & Hp & Hk & Hpf & Hc).
  destruct (t_type_plugins_missing _ _ _ _ Hk Hpf Hc) as [es [He Hin]].
  unfold AccDiffWeapon_codec, AccDiffBase_codec, AccDiffTarget_schemaCodec.
  rewrite Hp, He.
  split; [| split].
  - destruct (t_boolean "accurate" (get "accurate" ef));
      destruct (t_boolean "inaccurate" (get "inaccurate" ef));
      destruct (t_boolean "seeking" (get "seeking" ef));
      simpl; rewrite ?in_app_iff; tauto.
  - destruct (t_number "accuracy" (get "accuracy" ef));
      destruct (t_number "difficulty" (get "difficulty" ef));
      destruct (coverSchema "cover" (get "cover" ef));
      simpl; rewrite ?in_app_iff; tauto.
  - destruct (t_string "target_id" (get "target_id" ef));
      destruct (t_number "accuracy" (get "accuracy" ef));
      destruct (t_number "difficulty" (get "difficulty" ef));
      destruct (coverSchema "cover" (get "cover" ef));
      destruct (t_boolean "consumeLockOn" (get "consumeLockOn" ef));
      simpl; rewrite ?in_app_iff; tauto.
Qed.

Lemma t_array_targets_errs (sch : schema) (xs : list jsval) (x : jsval) (es : list string)
  (k : string) (w w' : world) (r : valid (list AccDiffTarget)) :
  t_array_targets sch xs w = (w', Ok r) -> In x xs ->
  AccDiffTarget_schemaCodec sch x = VErr es -> In k es -> In k (verrs r).
Proof.
  revert w w' r; induction xs as [| x0 xs IH]; intros w w' r H Hin Hx Hk;
    [destruct Hin |].
  simpl in H.
  apply bind_ok_inv in H as [r1 [w1 [H1 H2]]].
  apply bind_ok_inv in H2 as [rs [w2 [H3 H4]]].
  unfold ret in H4; inversion H4; subst; clear H4.
  destruct Hin as [-> | Hin].
  - unfold AccDiffTarget_codec in H1; rewrite Hx in H1; unfold ret in H1.
    inversion H1; subst; simpl; apply in_app_iff; left; exact Hk.
  - pose proof (IH _ _ _ H3 Hin Hx Hk) as Hrs.
    destruct r1; destruct rs; simpl in *; try contradiction;
      rewrite ?in_app_iff; auto.
Qed.

Lemma plugins_unknown_no_raw (sch : schema) (u : jsval) (k : string)
  (ef : list (string * jsval)) (m : plugins) :
  unknown_plugin_key sch u k -> u = JObj ef ->
  t_type_plugins sch (get "plugins" ef) = VOk m -> no_raw m = false.
Proof.
  intros (ef' & pf & -> & Hp & Hin & Hn) E Hm.
  inversion E; subst ef'; clear E.
  rewrite Hp in Hm; apply t_type_plugins_ok in Hm; subst m.
  destruct (in_keys_lookup _ _ Hin) as [v Hv].
  destruct (no_raw _) eqn:Er; [exfalso | reflexivity].
  apply (no_raw_In _ k v Er), lookup_In.
  rewrite plugin_fold_notin by exact Hn.
  rewrite lookup_raw_plugins, Hv; reflexivity.
Qed.

Lemma unknown_key_raw (r : registry) (fs : list (string * jsval)) (k : string) (w : world)
  (wp : AccDiffWeapon) (b : AccDiffBase) (ts : list AccDiffTarget) :
  in_some_entity unknown_plugin_key r fs k ->
  AccDiffWeapon_codec (weaponSchema r) (get "weapon" fs) = VOk wp ->
  AccDiffBase_codec (baseSchema r) (get "base" fs) = VOk b ->
  targets_codec (targetSchema r) (get "targets" fs) w = (w, Ok (VOk ts)) ->
  no_raw (w_plugins wp) = false \/ no_raw (b_plugins b) = false \/
  exists t, In t ts /\ no_raw (t_plugins t) = false.
Proof.
  intros [Hu | [Hu | (xs & x & Hxs & Hx & Hu)]] Hw Hb Hts.
  - left; apply AccDiffWeapon_codec_inv in Hw as [ef [E Hp]].
    exact (plugins_unknown_no_raw _ _ _ _ _ Hu E Hp).
  - right; left; apply AccDiffBase_codec_inv in Hb as [_ [ef [E Hp]]].
    exact (plugins_unknown_no_raw _ _ _ _ _ Hu E Hp).
  - right; right.
    unfold targets_codec in Hts; rewrite Hxs in Hts.
    apply t_array_targets_inv in Hts as [_ Hall].
    destruct (Forall2_in_l_In _ _ _ _ (Hall ts eq_refl) Hx) as [t [Ht [o [Ho [_ Et]]]]].
    exists t; split; [exact Ht |].
    rewrite Et; cbn [t_plugins].
    apply AccDiffTarget_schemaCodec_inv in Ho as [ef [E Hp]].
    exact (plugins_unknown_no_raw _ _ _ _ _ Hu E Hp).
Qed.

Lemma AccDiffData_new_raw_throw (ttl : string) (wp : AccDiffWeapon) (b : AccDiffBase)
  (ts : list AccDiffTarget) (w : world) :
  no_raw (w_plugins wp) = false \/ no_raw (b_plugins b) = false \/
  (exists t, In t ts /\ no_raw (t_plugins t) = false) ->
  exists w', AccDiffData_new ttl wp b ts w = (w', Throw TypeError).
Proof.
  intros Hraw.
  destruct (AccDiffData_new ttl wp b ts w) as [w' [d | e]] eqn:E.
  - exfalso; apply AccDiffData_new_inv in E as (_ & _ & Hw & Hb & Hts).
    destruct Hraw as [H | [H | [t [Ht H]]]]; try congruence.
    rewrite forallb_forall in Hts; rewrite (Hts t Ht) in H; discriminate.
  - exists w'; rewrite (AccDiffData_new_throw _ _ _ _ _ _ _ E); reflexivity.
Qed.

Lemma targets_codec_ok_world (sch : schema) (u : jsval) (w w' : world)
  (r : valid (list AccDiffTarget)) :
  targets_codec sch u w = (w', Ok r) -> w' = w.
Proof.
  unfold targets_codec; destruct u; intros H;
    try (unfold ret in H; inversion H; reflexivity).
  exact (proj1 (t_array_targets_inv _ _ _ _ _ H)).
Qed.

Lemma targets_codec_throw (sch : schema) (u : jsval) (w w' : world) (e : exn) :
  targets_codec sch u w = (w', Throw e) ->
  e = JsError "Token not found" /\ w' = notified w token_not_found_msg.
Proof.
  unfold targets_codec; destruct u; intros H;
    try (unfold ret in H; inversion H; fail).
  exact (t_array_targets_throw _ _ _ _ _ H).
Qed.

(** C5, amended: each [plugins] sub-map is validated with the non-exact
    [t.type(pluginSchema)]. (a) A registered key missing from a weapon, base
    or target [plugins] map, whose codec rejects [undefined], makes decoding
    fail: with a [ValidationError] that lists the key, or with the
    "Token not found" error of a target constructed before. (b) A key the
    schema does not name, at any position of the map, changes none of the
    validation errors, and the validated map keeps its plain value. (c) So
    an input with such a key in any entity never decodes to an
    [AccDiffData], and (d) when the input otherwise passes validation,
    decoding throws the [TypeError] of hydrating that plain value. *)
Theorem plugins_schema_closure :
  (forall (r : registry) (fs : list (string * jsval)) (w : world) (k : string),
     in_some_entity missing_plugin_key r fs k ->
     (exists es, fromObject r (JObj fs) w = (w, Throw (ValidationError es)) /\ In k es) \/
     fromObject r (JObj fs) w =
       (notified w token_not_found_msg, Throw (JsError "Token not found"))) /\
  (forall (sch : schema) (pf1 pf2 : list (string * jsval)) (k : string) (v : jsval),
     ~ In k (map fst sch) -> lookup k pf1 = None ->
     verrs (t_type_plugins sch (JObj (pf1 ++ (k, v) :: pf2))) =
       verrs (t_type_plugins sch (JObj (pf1 ++ pf2))) /\
     (forall m, t_type_plugins sch (JObj (pf1 ++ (k, v) :: pf2)) = VOk m ->
                lookup k m = Some (PRaw v))) /\
  (forall (r : registry) (fs : list (string * jsval)) (w : world) (k : string),
     in_some_entity unknown_plugin_key r fs k ->
     forall d, snd (fromObject r (JObj fs) w) <> Ok d) /\
  (forall (r : registry) (fs : list (string * jsval)) (w : world) (k : string)
          (ttl : string) (wp : AccDiffWeapon) (b : AccDiffBase) (ts : list AccDiffTarget),
     in_some_entity unknown_plugin_key r fs k ->
     t_string "title" (get "title" fs) = VOk ttl ->
     AccDiffWeapon_codec (weaponSchema r) (get "weapon" fs) = VOk wp ->
     AccDiffBase_codec (baseSchema r) (get "base" fs) = VOk b ->
     targets_codec (targetSchema r) (get "targets" fs) w = (w, Ok (VOk ts)) ->
     exists w', fromObject r (JObj fs) w = (w', Throw TypeError)).
Proof.
  split; [| split; [| split]].
  - intros r fs w k Hmiss.
    destruct (targets_codec (targetSchema r) (get "targets" fs) w)
      as [w2 [rts | e2]] eqn:Et.
    + pose proof (targets_codec_ok_world _ _ _ _ _ Et) as ->.
      left.
      assert (Hc : exists es,
                 AccDiffData_codec (weaponSchema r) (baseSchema r) (targetSchema r) (JObj fs) w
                 = (w, Ok (VErr es)) /\ In k es).
      { unfold AccDiffData_codec; cbv beta iota zeta.
        rewrite (bind_ok_eq _ _ _ _ _ Et).
        destruct Hmiss as [Hm | [Hm | (xs & x & Hxs & Hx & Hm)]].
        - apply missing_entity_errs in Hm as [Hm _].
          destruct (t_string "title" (get "title" fs));
            destruct (AccDiffWeapon_codec (weaponSchema r) (get "weapon" fs));
            destruct (AccDiffBase_codec (baseSchema r) (get "base" fs)); destruct rts;
            simpl in Hm |- *; try contradiction;
            (eexists; split; [reflexivity | rewrite ?in_app_iff; tauto]).
        - apply missing_entity_errs in Hm as [_ [Hm _]].
          destruct (t_string "title" (get "title" fs));
            destruct (AccDiffWeapon_codec (weaponSchema r) (get "weapon" fs));
            destruct (AccDiffBase_codec (baseSchema r) (get "base" fs)); destruct rts;
            simpl in Hm |- *; try contradiction;
            (eexists; split; [reflexivity | rewrite ?in_app_iff; tauto]).
        - apply missing_entity_errs in Hm as [_ [_ Hm]].
          destruct (AccDiffTarget_schemaCodec (targetSchema r) x) as [o | esx] eqn:Ex;
            [simpl in Hm; contradiction |].
          unfold targets_codec in Et; rewrite Hxs in Et.
          pose proof (t_array_targets_errs _ _ _ _ _ _ _ _ Et Hx Ex Hm) as Hr.
          destruct (t_string "title" (get "title" fs));
            destruct (AccDiffWeapon_codec (weaponSchema r) (get "weapon" fs));
            destruct (AccDiffBase_codec (baseSchema r) (get "base" fs)); destruct rts;
            simpl in Hr |- *; try contradiction;
            (eexists; split; [reflexivity | rewrite ?in_app_iff; tauto]). }
      destruct Hc as [es [Hc Hin]].
      exists es; split; [| exact Hin].
      unfold fromObject, decode; rewrite (bind_ok_eq _ _ _ _ _ Hc); reflexivity.
    + right.
      destruct (targets_codec_throw _ _ _ _ _ Et) as [-> ->].
      unfold fromObject, decode; apply bind_throw_eq.
      unfold AccDiffData_codec; cbv beta iota zeta.
      apply bind_throw_eq; exact Et.
  - intros sch pf1 pf2 k v Hn Hpf1; split.
    + rewrite !t_type_plugins_verrs; apply plugin_fails_get.
      intros k' Hk'; unfold get; rewrite !lookup_app.
      destruct (lookup k' pf1); [reflexivity |]; simpl.
      destruct (String.eqb k' k) eqn:E; [| reflexivity].
      apply String.eqb_eq in E; subst; contradiction.
    + intros m Hm; apply t_type_plugins_ok in Hm; subst m.
      rewrite plugin_fold_notin by exact Hn.
      rewrite lookup_raw_plugins, lookup_app, Hpf1; simpl.
      rewrite String.eqb_refl; reflexivity.
  - intros r fs w k Hu d Hd.
    destruct (fromObject r (JObj fs) w) as [w1 r1] eqn:E; simpl in Hd; subst r1.
    apply fromObject_inv in E as (fs' & ttl & wp & b & ts & Hfs & _ & Hw & Hb & Hts & Hn).
    inversion Hfs; subst fs'; clear Hfs.
    destruct (AccDiffData_new_raw_throw ttl wp b ts w
                (unknown_key_raw _ _ _ _ _ _ _ Hu Hw Hb Hts)) as [w' Hn'].
    rewrite Hn in Hn'; discriminate.
  - intros r fs w k ttl wp b ts Hu Ht Hw Hb Hts.
    destruct (AccDiffData_new_raw_throw ttl wp b ts w
                (unknown_key_raw _ _ _ _ _ _ _ Hu Hw Hb Hts)) as [w' Hn].
    exists w'.
    unfold fromObject, decode; apply bind_throw_eq.
    unfold AccDiffData_codec; cbv beta iota zeta.
    rewrite (bind_ok_eq _ _ _ _ _ Hts), Ht, Hw, Hb.
    apply bind_throw_eq; exact Hn.
Qed.

Lemma plugins_schema_closure_witness :
  ((exists es, fromObject (registry_of [inv_plugin]) (JObj data_fields_missing) world_ex =
                 (world_ex, Throw (ValidationError es)) /\ In "inv" es) \/
   fromObject (registry_of [inv_plugin]) (JObj data_fields_missing) world_ex =
     (notified world_ex token_not_found_msg, Throw (JsError "Token not found"))) /\
  (verrs (t_type_plugins [("inv", bool_codec)]
            (JObj ([("inv", JBool true)] ++ ("zzz", JBool false) :: [("yyy", JNull)]))) =
     verrs (t_type_plugins [("inv", bool_codec)] (JObj ([("inv", JBool true)] ++ [("yyy", JNull)]))) /\
   (forall m, t_type_plugins [("inv", bool_codec)]
                (JObj ([("inv", JBool true)] ++ ("zzz", JBool false) :: [("yyy", JNull)])) = VOk m ->
              lookup "zzz" m = Some (PRaw (JBool false)))) /\
  (forall d, snd (fromObject (registry_of []) (JObj data_fields_unknown) world_ex) <> Ok d) /\
  (exists w', fromObject (registry_of []) (JObj data_fields_unknown) world_ex = (w', Throw TypeError)).
Proof.
  destruct plugins_schema_closure as [Ha [Hb [Hc Hd]]].
  split; [| split; [| split]].
  - apply Ha; left.
    exists [("accurate", JBool false); ("inaccurate", JBool false);
            ("seeking", JBool false); ("plugins", JObj [])], [], bool_codec.
    repeat split; reflexivity.
  - apply Hb; [simpl; intros [H | []]; discriminate | reflexivity].
  - apply (Hc _ _ _ "zzz"); left.
    exists [("accurate", JBool false); ("inaccurate", JBool false);
            ("seeking", JBool false); ("plugins", JObj [("zzz", JBool true)])],
           [("zzz", JBool true)].
    split; [reflexivity | split; [reflexivity | split; [simpl; left; reflexivity | simpl; tauto]]].
  - apply (Hd _ _ _ "zzz" "Shot" (mkWeapon false false false [("zzz", PRaw (JBool true))])
             (mkBase 0 0 CoverNone [] None) []); try reflexivity.
    left.
    exists [("accurate", JBool false); ("inaccurate", JBool false);
            ("seeking", JBool false); ("plugins", JObj [("zzz", JBool true)])],
           [("zzz", JBool true)].
    split; [reflexivity | split; [reflexivity | split; [simpl; left; reflexivity | simpl; tauto]]].
Defined.
